(** * terragrunt-status: dependency ordering and per-stack status probing

    A shallow embedding of [bin/terragrunt-status.mjs]: the dependency
    tree built from the DOT output of [terragrunt graph-dependencies]
    ([getDependencyTree]), the subprocess runner ([execProcess]), the two
    probes ([isDeployed], [getPlan]) and the fan-out over all stacks
    ([getStatus], [getStatusAll], [go]). *)

From Stdlib Require Import ZArith String Ascii Lia.
From stdpp Require Import prelude strings gmap relations.

Local Open Scope Z_scope.
Set Warnings "-clear-no-such-hyp".
Set Default Proof Using "Type".

(** ** JavaScript built-ins used by the script *)

Module JS.

(** [s.includes(pat)]: [pat] occurs in [s] as a contiguous substring. *)
Fixpoint includes (s pat : string) : bool :=
  String.prefix pat s ||
  match s with
  | EmptyString => false
  | String _ s' => includes s' pat
  end.

(** [s.split(sep)] for a one-character separator. *)
Fixpoint split (sep : ascii) (s : string) : list string :=
  match s with
  | EmptyString => [EmptyString]
  | String c s' =>
      if Ascii.eqb c sep then EmptyString :: split sep s'
      else match split sep s' with
           | [] => [String c EmptyString]
           | w :: ws => String c w :: ws
           end
  end.

Definition newline : ascii := "010"%char.
Definition dquote : ascii := "034"%char.

(** [arr.indexOf(x)]: position of the first element equal to [x], else -1. *)
Fixpoint indexOf (arr : list string) (x : string) : Z :=
  match arr with
  | [] => -1
  | y :: arr' =>
      if bool_decide (y = x) then 0
      else let i := indexOf arr' x in
           if bool_decide (i = -1) then -1 else i + 1
  end.

(** [arr.includes(x)]. *)
Definition arr_includes (arr : list string) (x : string) : bool :=
  bool_decide (x ∈ arr).

(** [set.add(x)] on a [Set] of strings, kept in insertion order. *)
Definition Set_add (x : string) (s : list string) : list string :=
  if bool_decide (x ∈ s) then s else s ++ [x].

(** [code || 0] for the exit code handed to the [close] listener
    ([None] is JavaScript's [null]). *)
Definition or_zero (code : option Z) : Z := default 0 code.

(** [code !== 0]. *)
Definition not_strict_zero (code : option Z) : bool :=
  match code with
  | Some c => negb (c =? 0)
  | None => true
  end.

End JS.

(** ** The parsed graph

    [dotparser] returns one AST per graph of the DOT text; the script reads
    the statements [parsedGraph[0].children].  An edge statement carries
    [edge_list], an array with one entry per endpoint: the DOT grammar gives
    it at least two entries ([a -> b]) and allows more ([a -> b -> c]).
    Endpoints are taken to be plain node ids, as terragrunt writes them. *)

Record ids := Ids { at0 : string; at1 : string; from2 : list string }.

Definition ids_map (f : string → string) (a : ids) : ids :=
  {| at0 := f (at0 a); at1 := f (at1 a); from2 := f <$> from2 a |}.

Definition ids_list (a : ids) : list string :=
  at0 a :: at1 a :: from2 a.

Inductive stmt :=
| node_stmt (node_id : string)
| edge_stmt (edge_list : ids)
| attr_stmt.

Record graph := Graph { children : list stmt }.

(** An array as a heap object: [Set] compares objects by identity, so the
    address of each array produced by [map] is kept next to its entries. *)
Record array_obj := ArrayObj { addr : nat; items : ids }.

(** ** Topological sort

    The script calls [toposort(onlyEdges)] from the [toposort] package,
    which is not among the sources.  The specification (section 4.2) asks
    for a standard topological sort of the edge relation, depth-first being
    acceptable, that is deterministic and fails when it meets a cycle; the
    definitions below are the package's depth-first search, which reads the
    first two entries of each edge array. *)

Module Toposort.

(** How a step of the search ends: it goes on with a new state, it throws
    the cyclic-dependency error for a node, or the recursion bound of
    [visit] is used up (which [toposort_total] rules out). *)
Inductive step (S : Type) :=
| Go (s : S)
| Throw (node : string)
| Starved.
Arguments Go {S} s.
Arguments Throw {S} node.
Arguments Starved {S}.

(** The package marks nodes in [visited] by their position in the node
    array; the nodes are distinct, so the nodes themselves are kept here.
    The array [sorted] is filled from its last slot backwards, which is
    [::] on the part filled so far. *)
Record dfs := Dfs { visited : list string; sorted : list string }.

(** Modelled from the spec: the package's [uniqueNodes] is missing; the
    nodes of the graph are the two endpoints of every edge, in the order
    first seen. *)
Definition uniqueNodes (arr : list ids) : list string :=
  foldl (λ res edge, JS.Set_add (at1 edge) (JS.Set_add (at0 edge) res)) [] arr.

Definition ensure_key (k : string) (m : gmap string (list string))
  : gmap string (list string) :=
  match m !! k with
  | Some _ => m
  | None => <[k := []]> m
  end.

(** Modelled from the spec: the package's [makeOutgoingEdges] is missing;
    for every node, the set of nodes its edges lead to. *)
Definition makeOutgoingEdges (arr : list ids) : gmap string (list string) :=
  foldl (λ edges edge,
           let edges := ensure_key (at1 edge) (ensure_key (at0 edge) edges) in
           <[at0 edge := JS.Set_add (at1 edge) (default [] (edges !! at0 edge))]> edges)
        ∅ arr.

(** A loop over [l] that stops at the first step that does not go on. *)
Fixpoint each {S : Type} (f : string → S → step S) (l : list string) (s : S)
  : step S :=
  match l with
  | [] => Go s
  | x :: l' =>
      match f x s with
      | Go s' => each f l' s'
      | r => r
      end
  end.

(** Modelled from the spec: the package's [visit] is missing; the
    depth-first visit that fails with the cyclic-dependency error when it
    comes back to a node whose visit is in progress, and otherwise places
    the node in front of everything reached from it.  [fuel] bounds the
    depth of the recursion. *)
Fixpoint visit (fuel : nat) (outgoingEdges : gmap string (list string))
    (node : string) (predecessors : list string) (st : dfs) : step dfs :=
  match fuel with
  | O => Starved
  | S fuel' =>
      if bool_decide (node ∈ predecessors) then Throw node
      else if bool_decide (node ∈ visited st) then Go st
      else
        let st := {| visited := node :: visited st; sorted := sorted st |} in
        let outgoing := default [] (outgoingEdges !! node) in
        match each (λ child, visit fuel' outgoingEdges child (node :: predecessors))
                   (reverse outgoing) st with
        | Go st' => Go {| visited := visited st'; sorted := node :: sorted st' |}
        | r => r
        end
  end.

(** Modelled from the spec: the package's [toposort.array] and [toposort]
    are missing; every node is visited, last node first. *)
Definition toposort_array (nodes : list string) (edges : list ids)
  : step (list string) :=
  let outgoingEdges := makeOutgoingEdges edges in
  match each (λ node st,
                if bool_decide (node ∈ visited st) then Go st
                else visit (S (length nodes)) outgoingEdges node [] st)
             (reverse nodes) {| visited := []; sorted := [] |} with
  | Go st => Go (sorted st)
  | Throw node => Throw node
  | Starved => Starved
  end.

Definition toposort (edges : list ids) : step (list string) :=
  toposort_array (uniqueNodes edges) edges.

(** The relation the edges denote, and what a cycle is. *)
Definition edge_rel (edges : list ids) (x y : string) : Prop :=
  ∃ e, e ∈ edges ∧ at0 e = x ∧ at1 e = y.

Definition has_cycle (edges : list ids) : Prop :=
  ∃ x, tc (edge_rel edges) x x.

(** [x] stands strictly before [y] in [l]. *)
Definition before (l : list string) (x y : string) : Prop :=
  ∃ i j, l !! i = Some x ∧ l !! j = Some y ∧ (i < j)%nat.

(** What holds of the search between two calls of [visit]: [preds] are the
    nodes whose visit is in progress, [sorted] the finished ones, all within
    the node list [N]; the edges out of a finished node lead to finished
    nodes further right. *)
Record inv (edges : list ids) (N preds : list string) (st : dfs) : Prop := Inv {
  inv_visited : ∀ x, x ∈ visited st ↔ x ∈ sorted st ∨ x ∈ preds;
  inv_nodup : NoDup (sorted st);
  inv_disj : ∀ x, x ∈ sorted st → x ∉ preds;
  inv_nodes : ∀ x, x ∈ sorted st → x ∈ N;
  inv_closed : ∀ x y, x ∈ sorted st → edge_rel edges x y → before (sorted st) x y
}.

Definition extends (st st' : dfs) : Prop :=
  ∃ new, sorted st' = new ++ sorted st.

End Toposort.

(** ** Subprocess results, thrown values and promise outcomes *)

(** The [Error] that [spawn] hands to the [error] listener; [assigned]
    holds the [stdout], [stderr] and [exitCode] that
    [Object.assign(error, ret)] copies onto it. *)
Record spawn_error := SpawnError {
  code : string;
  assigned : option (string * string * Z)
}.

(** The object [ret] of [execProcess]; [err = None] is a missing or
    [undefined] property. *)
Record ret := Ret {
  stdout : string;
  stderr : string;
  exitCode : Z;
  err : option spawn_error
}.

Inductive exn :=
| ExecFailure (r : ret)
| CyclicDependency (node : string)
| SyntaxError
| TypeError.

(** How an [async] call ends: its promise resolves, rejects or stays
    pending, or the process leaves through [process.exit]. *)
Inductive outcome (A : Type) :=
| Resolved (a : A)
| Rejected (e : exn)
| Pending
| Exited (status : Z).
Arguments Resolved {A} a.
Arguments Rejected {A} e.
Arguments Pending {A}.
Arguments Exited {A} status.

(** What the child process delivers to the four listeners, in order. *)
Inductive event :=
| stdout_data (data : string)
| stderr_data (data : string)
| error_event (e : spawn_error)
| close_event (exit : option Z).

Record spawn_call := Spawn {
  file : string;
  args : list string;
  opt_cwd : string
}.

(** Calls made so far, together with the outcome. *)
Definition M (A : Type) : Type := list spawn_call * outcome A.

Definition mret {A} (a : A) : M A := ([], Resolved a).

Definition mbind {A B} (m : M A) (k : A → M B) : M B :=
  match m with
  | (log, Resolved a) => let '(log', o) := k a in (log ++ log', o)
  | (log, Rejected e) => (log, Rejected e)
  | (log, Pending) => (log, Pending)
  | (log, Exited c) => (log, Exited c)
  end.

Definition mcatch {A} (m : M A) (handler : exn → M A) : M A :=
  match m with
  | (log, Rejected e) => let '(log', o) := handler e in (log ++ log', o)
  | other => other
  end.

Definition mlift {A} (o : outcome A) : M A := ([], o).

Notation "x ← 'await' m ; k" := (mbind m (λ x, k))
  (at level 20, m at level 100, k at level 200, only parsing).

(** [Promise.all]: every task has been started; the result is the array
    of values once all have resolved.  Which task's rejection wins depends
    on timing; the leftmost is taken here. *)
Definition all_outcomes {A} (os : list (outcome A)) : outcome (list A) :=
  foldr (λ o acc,
           match o with
           | Resolved a =>
               match acc with
               | Resolved l => Resolved (a :: l)
               | Rejected e => Rejected e
               | Pending => Pending
               | Exited c => Exited c
               end
           | Rejected e => Rejected e
           | Pending =>
               match acc with
               | Rejected e => Rejected e
               | Exited c => Exited c
               | _ => Pending
               end
           | Exited c => Exited c
           end) (Resolved []) os.

Definition Promise_all {A} (tasks : list (M A)) : M (list A) :=
  (mjoin (fst <$> tasks), all_outcomes (snd <$> tasks)).

(** ** Records of the script *)

Record OrderedDependencies := Ordered {
  destroyOrder : list string;
  deployOrder : list string;
  noDeps : list string
}.

Module Deployed.
Record t := Make { deployed : bool; success : bool; failReason : option string }.
End Deployed.

Module Plan.
Record t := Make { hasChanges : bool; success : bool }.
End Plan.

Record status := Status {
  isDeployedResult : Deployed.t;
  planResult : option Plan.t
}.

Record argv := Argv {
  arg_d : bool;
  arg_deploy_order : bool;
  arg_x : bool;
  arg_destroy_order : bool;
  arg_r : bool;
  arg_refresh : bool
}.

(** ** execProcess *)

(** The listeners, run on the events in the order delivered: [data] is
    appended to [ret.stdout] or [ret.stderr], [error] is kept in the
    variable [error], and [close] settles the promise.  Nothing is
    delivered after [close]. *)
Fixpoint listen (rejectIfExitNonzero : bool) (events : list event)
    (r : ret) (error : option spawn_error) : outcome ret :=
  match events with
  | [] => Pending
  | stderr_data data :: rest =>
      listen rejectIfExitNonzero rest
        {| stdout := stdout r; stderr := stderr r +:+ data;
           exitCode := exitCode r; err := err r |} error
  | stdout_data data :: rest =>
      listen rejectIfExitNonzero rest
        {| stdout := stdout r +:+ data; stderr := stderr r;
           exitCode := exitCode r; err := err r |} error
  | error_event e :: rest => listen rejectIfExitNonzero rest r (Some e)
  | close_event exit :: _ =>
      let r := {| stdout := stdout r; stderr := stderr r;
                  exitCode := JS.or_zero exit; err := err r |} in
      let error :=
        (λ e, {| code := code e;
                 assigned := Some (stdout r, stderr r, exitCode r) |}) <$> error in
      if JS.not_strict_zero exit && rejectIfExitNonzero
      then Rejected (ExecFailure r)
      else Resolved {| stdout := stdout r; stderr := stderr r;
                       exitCode := exitCode r; err := error |}
  end.

(** [execProcess(file, args, opts, rejectIfExitNonzero)], given the events
    of the child that [spawn(file, args, opts)] starts. *)
Definition execProcess (events : list event) (rejectIfExitNonzero : bool)
  : outcome ret :=
  listen rejectIfExitNonzero events
    {| stdout := EmptyString; stderr := EmptyString; exitCode := 255;
       err := None |} None.

(** ** What the script takes from outside

    The [terragrunt] executable found by [which], the scan root [cwd],
    [path.relative(cwd, _)] and [path.resolve(cwd, _)], chalk's [yellow]
    styling, [dotparser], the parsed command line [argv], and the events
    each spawned child delivers. *)

Record host := Host {
  terragrunt : string;
  cwd : string;
  relative : string → string;
  resolve : string → string;
  yellow : string → string;
  dotparser : string → option (list graph);
  argv_of : argv;
  child : spawn_call → list event
}.

(** ** A sample run

    A scan root [/infra] with the stacks [a], [b], [c] and [d], where [b]
    depends on [a]: the state listing of [a] shows one resource and its
    plan has changes, the executable cannot be started in [b], [c] has no
    state file, and the listing of [d] is a blank line. *)

Module Sample.

Definition terragrunt : string := "/usr/local/bin/terragrunt".
Definition cwd : string := "/infra".
Definition relative (id : string) : string := id.
Definition resolve (stack : string) : string := "/infra/" +:+ stack.
Definition yellow (text : string) : string := text.
Definition flags : argv := Argv false false false false false false.

Definition stmts : list stmt :=
  [node_stmt "a"; node_stmt "b"; node_stmt "c"; node_stmt "d";
   edge_stmt (Ids "b" "a" [])].

Definition dotparser (text : string) : option (list graph) :=
  Some [Graph stmts].

(** A graph in which [a] and [b] depend on each other. *)
Definition looping : list stmt :=
  [edge_stmt (Ids "a" "b" []); edge_stmt (Ids "b" "a" [])].

Definition dotparser_looping (text : string) : option (list graph) :=
  Some [Graph looping].

(** A graph with one chained edge statement, [a -> b -> c]. *)
Definition chained : list stmt := [edge_stmt (Ids "a" "b" ["c"])].

Definition enoent : spawn_error := SpawnError "ENOENT" None.

Definition child (call : spawn_call) : list event :=
  if bool_decide (head (args call) = Some "graph-dependencies") then
    [stdout_data "digraph { }"; close_event (Some 0)]
  else if bool_decide (head (args call) = Some "state") then
    if bool_decide (opt_cwd call = "/infra/b") then
      [error_event enoent; close_event (Some (-2))]
    else if bool_decide (opt_cwd call = "/infra/c") then
      [stderr_data "No state file was found!"; close_event (Some 1)]
    else if bool_decide (opt_cwd call = "/infra/d") then
      [stdout_data "  "; close_event (Some 0)]
    else
      [stdout_data "aws_s3_bucket.logs"; stdout_data (String JS.newline EmptyString);
       close_event (Some 0)]
  else
    [stdout_data "Plan: 1 to add, 0 to change, 0 to destroy.";
     close_event (Some 2)].

Definition deps : OrderedDependencies :=
  {| destroyOrder := ["b"; "a"]; deployOrder := ["a"; "b"];
     noDeps := ["c"; "d"] |}.

Definition world : host :=
  Host terragrunt cwd relative resolve yellow dotparser flags child.

Definition world_looping : host :=
  Host terragrunt cwd relative resolve yellow dotparser_looping flags child.

(** Further runs: the graph command fails, its output does not parse,
    only the orders are asked for, the plan of [a] is ended by a signal,
    and the state listing of [b] never ends. *)
Definition child_failing_graph (call : spawn_call) : list event :=
  if bool_decide (head (args call) = Some "graph-dependencies") then
    [stderr_data "Could not find any subfolders with Terragrunt configuration files";
     close_event (Some 1)]
  else child call.

Definition world_failing_graph : host :=
  Host terragrunt cwd relative resolve yellow dotparser flags child_failing_graph.

Definition world_unparsed : host :=
  Host terragrunt cwd relative resolve yellow (λ _, None) flags child.

Definition world_orders_only : host :=
  Host terragrunt cwd relative resolve yellow dotparser
       (Argv true false false false false false) child.

Definition child_killed_plan (call : spawn_call) : list event :=
  if bool_decide (head (args call) = Some "plan") then
    [stdout_data "Refreshing state..."; close_event None]
  else child call.

Definition world_killed_plan : host :=
  Host terragrunt cwd relative resolve yellow dotparser flags child_killed_plan.

Definition child_hanging (call : spawn_call) : list event :=
  if bool_decide (head (args call) = Some "state")
     && bool_decide (opt_cwd call = "/infra/b") then
    [stdout_data "Acquiring state lock."]
  else child call.

Definition world_hanging : host :=
  Host terragrunt cwd relative resolve yellow dotparser flags child_hanging.

End Sample.

(** ** The CommonJS twin of the script

    [bin/terragrunt-status.js] is the same program with another
    [execProcess]: the exit code is stored as given, the promise is also
    rejected when an [error] event was seen, and what it is rejected with
    is the error with the fields of [ret] copied onto it.
    [Object.assign(error, ret)] with no error seen is [Object.assign] on
    [undefined], a [TypeError] thrown inside the [close] listener, which
    nothing catches. *)

Module Cjs.

Record ret := Ret {
  stdout : string;
  stderr : string;
  exitCode : option Z;
  err : option spawn_error
}.

(** The spawn error after [Object.assign(error, ret)]. *)
Record enriched := Enriched {
  e_code : string;
  e_stdout : string;
  e_stderr : string;
  e_exitCode : option Z
}.

Inductive settled :=
| Resolved (r : ret)
| Rejected (e : enriched)
| Pending
| Uncaught.

Fixpoint listen (rejectIfExitNonzero : bool) (events : list event)
    (r : ret) (error : option spawn_error) : settled :=
  match events with
  | [] => Pending
  | stderr_data data :: rest =>
      listen rejectIfExitNonzero rest
        {| stdout := stdout r; stderr := stderr r +:+ data;
           exitCode := exitCode r; err := err r |} error
  | stdout_data data :: rest =>
      listen rejectIfExitNonzero rest
        {| stdout := stdout r +:+ data; stderr := stderr r;
           exitCode := exitCode r; err := err r |} error
  | error_event e :: rest => listen rejectIfExitNonzero rest r (Some e)
  | close_event exit :: _ =>
      let r := {| stdout := stdout r; stderr := stderr r;
                  exitCode := exit; err := err r |} in
      if (bool_decide (is_Some error) || JS.not_strict_zero exit)
         && rejectIfExitNonzero
      then match error with
           | Some e => Rejected {| e_code := code e; e_stdout := stdout r;
                                   e_stderr := stderr r; e_exitCode := exitCode r |}
           | None => Uncaught
           end
      else Resolved {| stdout := stdout r; stderr := stderr r;
                       exitCode := exitCode r; err := error |}
  end.

Definition execProcess (events : list event) (rejectIfExitNonzero : bool)
  : settled :=
  listen rejectIfExitNonzero events
    {| stdout := EmptyString; stderr := EmptyString; exitCode := Some 255;
       err := None |} None.

End Cjs.

(** ** The deployment probe of the execa-based script

    An earlier script of the repository runs the commands through [execa]
    and classifies in the [finally] block of [isDeployed], from the error
    [execa] rejected with (if any), the exit code of the process and the
    text read from its standard output. *)

Module Execa.

Record error := Error { message : string; stderr : option string }.

Record ret := Ret {
  deployed : bool;
  success : bool;
  failReason : string;
  stacktrace : option error
}.

(** [error?.message.includes(pat)]. *)
Definition message_includes (e : option error) (pat : string) : bool :=
  match e with
  | Some e => JS.includes (message e) pat
  | None => false
  end.

(** [ret.stacktrace?.stderr?.includes(pat)]. *)
Definition stderr_includes (e : option error) (pat : string) : bool :=
  match e with
  | Some {| stderr := Some text |} => JS.includes text pat
  | _ => false
  end.

Definition isDeployed (yellow : string → string) (error : option error)
    (exitCode : option Z) (stdout : string) : ret :=
  if message_includes error "but detected no outputs" then
    Ret false false "Parent stack not deployed." error
  else if message_includes error "No state file was found!" then
    Ret false false "No state file found." error
  else if stderr_includes error "Error finding AWS credentials" then
    Ret false false "Could not find AWS credentials." error
  else if stderr_includes error "Initialization required" then
    Ret false false
      ("Initialization required. Run " +:+ yellow "terragrunt init"
       +:+ " in this folder.") error
  else if bool_decide (is_Some error) then
    Ret false false "Unknown" error
  else if bool_decide (exitCode = Some 0) then
    if (1 <? String.length stdout)%nat then Ret true true EmptyString error
    else Ret false true EmptyString error
  else Ret false false EmptyString error.

End Execa.


(** ** The script *)

Section Script.

Variable w : host.

(** A call of [execProcess]: the spawn is recorded and the child's events
    are taken from [w]. *)
Definition exec (file : string) (args : list string) (dir : string)
    (rejectIfExitNonzero : bool) : M ret :=
  let call := {| file := file; args := args; opt_cwd := dir |} in
  ([call], execProcess (child w call) rejectIfExitNonzero).

(** *** getDependencyTree *)

Definition edge_lists (children : list stmt) : list ids :=
  omap (λ obj, match obj with edge_stmt l => Some l | _ => None end) children.

Definition node_ids (children : list stmt) : list string :=
  omap (λ obj, match obj with node_stmt id => Some id | _ => None end) children.

(** [arrs.map(f)] where [f] builds a new array: the [i]-th result is a
    fresh object. *)
Definition map_fresh (base : nat) (f : ids → ids) (arrs : list ids)
  : list array_obj :=
  imap (λ i a, {| addr := (base + i)%nat; items := f a |}) arrs.

(** [new Set(objs)]: an object is dropped when the very same object (same
    address) is already in the set. *)
Definition Set_of_arrays (objs : list array_obj) : list array_obj :=
  foldl (λ s o, if bool_decide (addr o ∈ addr <$> s) then s else s ++ [o])
        [] objs.

Definition onlyEdges (children : list stmt) : list ids :=
  items <$> Set_of_arrays (map_fresh 0 (ids_map (relative w)) (edge_lists children)).

(** Lines 109-130: from the statements of the parsed graph to the value
    returned. *)
Definition orderDependencies (children : list stmt)
  : outcome OrderedDependencies :=
  match Toposort.toposort (onlyEdges children) with
  | Toposort.Go destroyOrder =>
      let otherNodes :=
        filter (λ obj, JS.arr_includes destroyOrder obj = false)
               (relative w <$> node_ids children) in
      Resolved {| destroyOrder := destroyOrder;
                  deployOrder := reverse destroyOrder;
                  noDeps := otherNodes |}
  | Toposort.Throw node => Rejected (CyclicDependency node)
  | Toposort.Starved => Pending
  end.

(** The [catch] block: [e?.code] is [undefined] for every value thrown in
    the [try] block; [e?.stderr.includes] is a [TypeError] unless [e] is
    the object [execProcess] rejects with, and then both branches end in
    [process.exit(1)]. *)
Definition on_failure (e : exn) : M OrderedDependencies :=
  match e with
  | ExecFailure _ => ([], Exited 1)
  | _ => ([], Rejected TypeError)
  end.

Definition getDependencyTree : M OrderedDependencies :=
  mcatch
    (result ← await exec (terragrunt w)
        ["graph-dependencies"; "--terragrunt-ignore-external-dependencies"]
        (cwd w) true;
     match dotparser w (stdout result) with
     | None => mlift (Rejected SyntaxError)
     | Some [] => mlift (Rejected TypeError)
     | Some (g :: _) => mlift (orderDependencies (children g))
     end)
    on_failure.

(** *** isDeployed *)

Definition no_output_reason : string :=
  "Terragrunt exited zero, but Terraform did not output anything from "
  +:+ String JS.dquote ("terragrunt state list" +:+ String JS.dquote ".").

(** Lines 212-248: the record [ret] of [isDeployed], from the result of
    [terragrunt state list]. *)
Definition classify (result : ret) : Deployed.t :=
  if JS.includes (stderr result) "No state file was found!" then
    Deployed.Make false false (Some "No state file found.")
  else if JS.includes (stderr result) "but detected no outputs" then
    Deployed.Make false false (Some "Parent stack not deployed.")
  else if JS.includes (stderr result) "Error finding AWS credentials" then
    Deployed.Make false false (Some "Could not find AWS credentials.")
  else if JS.includes (stderr result) "Initialization required"
          || JS.includes (stderr result) "Could not load plugin" then
    Deployed.Make false false
      (Some ("Initialization required. Run " +:+ yellow w "terragrunt init"
             +:+ " in this folder."))
  else if negb (exitCode result =? 0) then
    Deployed.Make false false (Some "Unknown")
  else if (1 <? length (JS.split JS.newline (stdout result)))%nat then
    Deployed.Make true true None
  else
    Deployed.Make false true (Some no_output_reason).

Definition isDeployed (dir : string) : M Deployed.t :=
  result ← await exec (terragrunt w) ["state"; "list"] dir false;
  mret (classify result).

(** *** getPlan *)

Definition tgPlanArgs : list string :=
  ["plan"; "-detailed-exitcode"; "-compact-warnings"]
  ++ (if negb (arg_r (argv_of w)) && negb (arg_refresh (argv_of w))
      then ["-refresh=false"; "-lock=false"] else []).

(** Lines 259-283: the record [ret] of [getPlan], from the result of
    [terragrunt plan]. *)
Definition interpret (result : ret) : Plan.t :=
  if exitCode result =? 0 then Plan.Make false true
  else if exitCode result =? 2 then Plan.Make true true
  else Plan.Make false false.

Definition getPlan (dir : string) : M Plan.t :=
  result ← await exec (terragrunt w) tgPlanArgs dir false;
  mret (interpret result).

(** *** getStatus, getStatusAll, go *)

Definition getStatus (dir : string) : M status :=
  isDeployedResult ← await isDeployed dir;
  if Deployed.deployed isDeployedResult then
    planResult ← await getPlan dir;
    mret {| isDeployedResult := isDeployedResult;
            planResult := Some planResult |}
  else
    mret {| isDeployedResult := isDeployedResult; planResult := None |}.

(** [getStatusAll] awaits the array [results] and passes over it once
    (no result carries a [stacktrace]); the array is what is returned
    here. *)
Definition getStatusAll (dependencyTree : OrderedDependencies)
  : M (list status) :=
  Promise_all ((λ stack, getStatus (resolve w stack)) <$> deployOrder dependencyTree).

(** [go], once [failEarly] has found both executables: with [-d] or [-x]
    the orders are printed and the process exits; otherwise every stack is
    probed. *)
Definition order_only : bool :=
  arg_d (argv_of w) || arg_deploy_order (argv_of w)
  || arg_x (argv_of w) || arg_destroy_order (argv_of w).

(** Lines 73-74: [noDeps] is appended to both orders. *)
Definition with_noDeps (dependencyTree : OrderedDependencies)
  : OrderedDependencies :=
  {| destroyOrder := destroyOrder dependencyTree ++ noDeps dependencyTree;
     deployOrder := deployOrder dependencyTree ++ noDeps dependencyTree;
     noDeps := noDeps dependencyTree |}.

Definition go : M (list status) :=
  dependencyTree ← await getDependencyTree;
  if order_only then mlift (Exited 0)
  else getStatusAll (with_noDeps dependencyTree).

(** *** Notions of the specification *)

(** Every node identifier the raw graph mentions, as an endpoint of an edge
    statement or in a node statement, relative to the scan root. *)
Definition allNodes (children : list stmt) : list string :=
  relative w <$> (mjoin (ids_list <$> edge_lists children) ++ node_ids children).

(** The three commands the script spawns. *)
Definition graph_call : spawn_call :=
  {| file := terragrunt w;
     args := ["graph-dependencies"; "--terragrunt-ignore-external-dependencies"];
     opt_cwd := cwd w |}.

Definition state_call (dir : string) : spawn_call :=
  {| file := terragrunt w; args := ["state"; "list"]; opt_cwd := dir |}.

Definition plan_call (dir : string) : spawn_call :=
  {| file := terragrunt w; args := tgPlanArgs; opt_cwd := dir |}.

(** The child reaches its [close] event. *)
Definition closes (events : list event) : Prop :=
  ∃ exit, close_event exit ∈ events.

(** In the world [w'] the two probes of [dir] are the same commands and
    their children deliver the same events as in [w]; everything else,
    the children of the other stacks included, may differ. *)
Definition same_probes (w' : host) (dir : string) : Prop :=
  terragrunt w' = terragrunt w
  ∧ yellow w' = yellow w
  ∧ argv_of w' = argv_of w
  ∧ child w' (state_call dir) = child w (state_call dir)
  ∧ child w' (plan_call dir) = child w (plan_call dir).

(** The texts [isDeployed] looks for in [stderr]. *)
Definition failure_patterns : list string :=
  ["No state file was found!"; "but detected no outputs";
   "Error finding AWS credentials"; "Initialization required";
   "Could not load plugin"].

Definition matches_none (text : string) : Prop :=
  ∀ pat, pat ∈ failure_patterns → JS.includes text pat = false.

(** The number of lines the script counts in a text. *)
Definition line_count (text : string) : nat :=
  length (JS.split JS.newline text).

(** The edges of the graph as normalized (from, to) pairs, the relation
    they denote, and what a cycle of the graph is. *)
Definition edge_pairs (children : list stmt) : list (string * string) :=
  (λ a, (relative w (at0 a), relative w (at1 a))) <$> edge_lists children.

Definition depends_on (children : list stmt) (a b : string) : Prop :=
  (a, b) ∈ edge_pairs children.

Definition cyclic (children : list stmt) : Prop :=
  ∃ x, tc (depends_on children) x x.

(** Every edge statement names exactly two endpoints, as in the output of
    [terragrunt graph-dependencies]. *)
Definition binary_edges (children : list stmt) : Prop :=
  ∀ a, a ∈ edge_lists children → from2 a = [].

(** *** failEarly and the start of go

    [failEarly] leaves through [process.exit] for the help and version
    flags and when [which] finds no [terraform] or no [terragrunt];
    otherwise it stores the two paths, and [w] holds [terragrunt] as stored.
    [script] is [go] from its first line. *)

Record startup := Startup {
  arg_help : bool;
  arg_h : bool;
  arg_version : bool;
  arg_v : bool;
  which_terraform : option string;
  which_terragrunt : option string
}.

Definition failEarly (s : startup) : outcome (string * string) :=
  if arg_help s || arg_h s then Exited 0
  else if arg_version s || arg_v s then Exited 0
  else match which_terraform s, which_terragrunt s with
       | Some terraform, Some terragrunt => Resolved (terraform, terragrunt)
       | _, _ => Exited 1
       end.

Definition script (s : startup) : M (list status) :=
  whichResults ← await mlift (failEarly s);
  go.

(** *** The first script of the repository

    Its [getDependencyTree] takes the node ids as they are, and returns
    [{destroyOrder: destroyOrder, deployOrder: destroyOrder.reverse()}]:
    [reverse] turns the array around in place and returns that same array.
    Arrays live in a store and the two fields hold addresses. *)

Record tree_refs := TreeRefs { destroyOrder_at : nat; deployOrder_at : nat }.

(** [arr.reverse()] on the array at address [a]. *)
Definition reverse_at (a : nat) (store : list (list string))
  : list (list string) * nat :=
  (alter reverse a store, a).

Definition first_orderDependencies (children : list stmt)
  : Toposort.step (list (list string) * tree_refs) :=
  match Toposort.toposort (ids_map (λ id, id) <$> edge_lists children) with
  | Toposort.Go sorted =>
      let store := [sorted] in
      let destroyOrder := 0%nat in
      let '(store, reversed) := reverse_at destroyOrder store in
      Toposort.Go (store, {| destroyOrder_at := destroyOrder;
                             deployOrder_at := reversed |})
  | Toposort.Throw node => Toposort.Throw node
  | Toposort.Starved => Toposort.Starved
  end.

(** *** Further notions for stating what the code does *)

(** The texts the child wrote to its standard output and to its standard
    error, and the last error it raised. *)
Fixpoint out_text (events : list event) : string :=
  match events with
  | [] => EmptyString
  | stdout_data data :: rest => data +:+ out_text rest
  | _ :: rest => out_text rest
  end.

Fixpoint err_text (events : list event) : string :=
  match events with
  | [] => EmptyString
  | stderr_data data :: rest => data +:+ err_text rest
  | _ :: rest => err_text rest
  end.

Fixpoint last_error (events : list event) : option spawn_error :=
  match events with
  | [] => None
  | error_event e :: rest =>
      match last_error rest with
      | Some e' => Some e'
      | None => Some e
      end
  | _ :: rest => last_error rest
  end.

(** How often the character [c] occurs in [text]. *)
Fixpoint occurrences (c : ascii) (text : string) : nat :=
  match text with
  | EmptyString => 0%nat
  | String c' rest =>
      if Ascii.eqb c' c then S (occurrences c rest) else occurrences c rest
  end.

(** The stacks [go] probes, as directories. *)
Definition probed_dirs (deps : OrderedDependencies) : list string :=
  resolve w <$> (deployOrder deps ++ noDeps deps).


(** ** Facts about the built-ins *)

Lemma Set_add_elem (x y : string) (s : list string) :
  x ∈ JS.Set_add y s ↔ x = y ∨ x ∈ s.
Proof.
  unfold JS.Set_add. case_bool_decide; set_solver.
Qed.

Lemma Set_add_NoDup (y : string) (s : list string) :
  NoDup s → NoDup (JS.Set_add y s).
Proof.
  intros Hs. unfold JS.Set_add. case_bool_decide; [done|].
  apply NoDup_app. split_and!; [done | set_solver | apply NoDup_singleton].
Qed.

Lemma uniqueNodes_elem (arr : list ids) (x : string) :
  x ∈ Toposort.uniqueNodes arr ↔ ∃ e, e ∈ arr ∧ (at0 e = x ∨ at1 e = x).
Proof.
  unfold Toposort.uniqueNodes.
  induction arr as [|e arr IH] using rev_ind; simpl.
  - split; [intros H; inversion H | intros (e & H & _); inversion H].
  - rewrite foldl_snoc, !Set_add_elem, IH. split.
    + intros [->|[->|(e' & He' & Hx)]].
      * exists e. set_solver.
      * exists e. set_solver.
      * exists e'. set_solver.
    + intros (e' & He' & Hx). apply elem_of_app in He' as [He'|He'].
      * right; right. eauto.
      * apply list_elem_of_singleton in He' as ->. destruct Hx; auto.
Qed.

Lemma uniqueNodes_NoDup (arr : list ids) : NoDup (Toposort.uniqueNodes arr).
Proof.
  unfold Toposort.uniqueNodes.
  induction arr as [|e arr IH] using rev_ind; simpl.
  - constructor.
  - rewrite foldl_snoc. by do 2 apply Set_add_NoDup.
Qed.

Lemma ensure_key_default (k x : string) (m : gmap string (list string)) :
  default [] (Toposort.ensure_key k m !! x) = default [] (m !! x).
Proof.
  unfold Toposort.ensure_key. destruct (m !! k) eqn:Hk; [done|].
  destruct (decide (k = x)) as [->|Hne].
  - by rewrite lookup_insert_eq, Hk.
  - by rewrite lookup_insert_ne.
Qed.

Lemma edge_rel_snoc (arr : list ids) (e : ids) (x y : string) :
  Toposort.edge_rel (arr ++ [e]) x y
  ↔ Toposort.edge_rel arr x y ∨ (at0 e = x ∧ at1 e = y).
Proof.
  unfold Toposort.edge_rel. split.
  - intros (e' & He' & H0 & H1). apply elem_of_app in He' as [He'|He'].
    + left. eauto.
    + apply list_elem_of_singleton in He' as ->. auto.
  - intros [(e' & He' & H)|H].
    + exists e'. split; [set_solver | done].
    + exists e. split; [set_solver | done].
Qed.

Lemma outgoing_elem (arr : list ids) (x y : string) :
  y ∈ default [] (Toposort.makeOutgoingEdges arr !! x) ↔ Toposort.edge_rel arr x y.
Proof.
  unfold Toposort.makeOutgoingEdges. revert x y.
  induction arr as [|e arr IH] using rev_ind; intros x y.
  - simpl. rewrite lookup_empty. simpl. split.
    + intros H. inversion H.
    + intros (e & H & _). inversion H.
  - rewrite foldl_snoc, edge_rel_snoc. cbv zeta.
    destruct (decide (at0 e = x)) as [<-|Hne].
    + rewrite lookup_insert_eq. simpl.
      rewrite Set_add_elem, !ensure_key_default, IH. naive_solver.
    + rewrite lookup_insert_ne by done.
      rewrite !ensure_key_default, IH. naive_solver.
Qed.

(** ** Facts about the order of a list *)

Lemma before_app (new l : list string) (x y : string) :
  Toposort.before l x y → Toposort.before (new ++ l) x y.
Proof.
  intros (i & j & Hi & Hj & Hlt).
  exists (length new + i)%nat, (length new + j)%nat.
  rewrite !lookup_app_r by lia.
  replace (length new + i - length new)%nat with i by lia.
  replace (length new + j - length new)%nat with j by lia.
  split_and!; [done | done | lia].
Qed.

Lemma before_head (l : list string) (x y : string) :
  y ∈ l → Toposort.before (x :: l) x y.
Proof.
  intros Hy. apply list_elem_of_lookup in Hy as [j Hj].
  exists 0%nat, (S j). split_and!; [done | done | lia].
Qed.

Lemma before_trans (l : list string) (x y z : string) :
  NoDup l → Toposort.before l x y → Toposort.before l y z → Toposort.before l x z.
Proof.
  intros Hnd (i & j & Hi & Hj & Hij) (j' & k & Hj' & Hk & Hjk).
  assert (j = j') as <- by (eapply NoDup_lookup; eauto).
  exists i, k. split_and!; [done | done | lia].
Qed.

Lemma before_irrefl (l : list string) (x : string) :
  NoDup l → ¬ Toposort.before l x x.
Proof.
  intros Hnd (i & j & Hi & Hj & Hij).
  assert (i = j) by (eapply NoDup_lookup; eauto). lia.
Qed.

(** ** The depth-first search keeps its invariant *)

Lemma extends_refl (st : Toposort.dfs) : Toposort.extends st st.
Proof. by exists []. Qed.

Lemma extends_trans (st1 st2 st3 : Toposort.dfs) :
  Toposort.extends st1 st2 → Toposort.extends st2 st3 → Toposort.extends st1 st3.
Proof.
  intros [n1 H1] [n2 H2]. exists (n2 ++ n1). by rewrite H2, H1, app_assoc.
Qed.

Lemma extends_elem (st st' : Toposort.dfs) (x : string) :
  Toposort.extends st st' → x ∈ Toposort.sorted st → x ∈ Toposort.sorted st'.
Proof. intros [new ->] Hx. set_solver. Qed.

Lemma each_inv (edges : list ids) (N preds : list string)
    (f : string → Toposort.dfs → Toposort.step Toposort.dfs) (cs : list string) :
  (∀ c st st', c ∈ cs → Toposort.inv edges N preds st → f c st = Toposort.Go st' →
     Toposort.inv edges N preds st' ∧ c ∈ Toposort.sorted st' ∧ Toposort.extends st st') →
  ∀ st st', Toposort.inv edges N preds st → Toposort.each f cs st = Toposort.Go st' →
    Toposort.inv edges N preds st'
    ∧ (∀ c, c ∈ cs → c ∈ Toposort.sorted st')
    ∧ Toposort.extends st st'.
Proof.
  induction cs as [|c cs IH]; intros Hf st st' Hinv Heach; simpl in Heach.
  - injection Heach as <-. split_and!; [done | | apply extends_refl].
    intros c Hc. inversion Hc.
  - destruct (f c st) as [st1| |] eqn:Hc; try done.
    destruct (Hf c st st1) as (Hinv1 & Hc1 & Hext1); [set_solver | done | done |].
    destruct (IH (λ c' s s' Hc', Hf c' s s' (list_elem_of_further _ _ _ Hc'))
                 st1 st' Hinv1 Heach) as (Hinv' & Hcs & Hext').
    split_and!; [done | | by eapply extends_trans].
    intros c' Hc'. apply elem_of_cons in Hc' as [->|Hc'].
    + by eapply extends_elem.
    + by apply Hcs.
Qed.

Lemma visit_inv (edges : list ids) (N : list string) :
  (∀ x y, Toposort.edge_rel edges x y → y ∈ N) →
  ∀ fuel node preds st st',
    node ∈ N → Toposort.inv edges N preds st →
    Toposort.visit fuel (Toposort.makeOutgoingEdges edges) node preds st = Toposort.Go st' →
    Toposort.inv edges N preds st' ∧ node ∈ Toposort.sorted st' ∧ Toposort.extends st st'.
Proof.
  intros Hclosed. induction fuel as [|fuel IH]; intros node preds st st' HN Hinv Hv;
    simpl in Hv; [done|].
  case_bool_decide as Hpred; [done|].
  case_bool_decide as Hvis.
  - injection Hv as <-. split_and!; [done | | apply extends_refl].
    apply (Toposort.inv_visited _ _ _ _ Hinv) in Hvis as [?|?]; done.
  - destruct Hinv as [Hvisited Hnd Hdisj Hnodes Hcl].
    set (st1 := {| Toposort.visited := node :: Toposort.visited st;
                   Toposort.sorted := Toposort.sorted st |}) in *.
    assert (Hnotsorted : node ∉ Toposort.sorted st).
    { intros Hs. apply Hvis, Hvisited. by left. }
    assert (Hinv1 : Toposort.inv edges N (node :: preds) st1).
    { constructor; simpl; try done.
      - intros x. rewrite !elem_of_cons, Hvisited. tauto.
      - intros x Hx. rewrite elem_of_cons. intros [->|Hp]; [done|].
        by apply (Hdisj x). }
    match type of Hv with
    | match Toposort.each ?f ?cs ?s with _ => _ end = _ =>
        destruct (Toposort.each f cs s) as [st2| |] eqn:Heach; try done;
        destruct (each_inv edges N (node :: preds) f cs) with (st := s) (st' := st2)
          as (Hinv2 & Hcs & Hext); [ | done | done | ]
    end.
    { intros c s s' Hc Hs Hgo. apply (IH c (node :: preds) s s'); [|done|done].
      apply (Hclosed node c), outgoing_elem.
      by apply elem_of_reverse. }
    injection Hv as <-. destruct Hinv2 as [Hvisited2 Hnd2 Hdisj2 Hnodes2 Hcl2].
    assert (Hnode2 : node ∉ Toposort.sorted st2).
    { intros Hs. apply (Hdisj2 node Hs). by left. }
    split_and!.
    + constructor; simpl.
      * intros x. rewrite Hvisited2, !elem_of_cons. tauto.
      * by constructor.
      * intros x. rewrite elem_of_cons. intros [->|Hx]; [done|].
        intros Hp. apply (Hdisj2 x Hx). by right.
      * intros x. rewrite elem_of_cons. intros [->|Hx]; [done | by apply Hnodes2].
      * intros x y. rewrite elem_of_cons. intros [->|Hx] Hxy.
        -- apply before_head, Hcs, elem_of_reverse. by apply outgoing_elem.
        -- apply (before_app [node]). by apply Hcl2.
    + simpl. by left.
    + destruct Hext as [new Hnew]. exists (node :: new). simpl. by rewrite Hnew.
Qed.

(** ** The search never runs out of its recursion bound *)

Lemma each_not_starved {S : Type} (f : string → S → Toposort.step S) (cs : list string) :
  (∀ c, c ∈ cs → ∀ st, f c st ≠ Toposort.Starved) →
  ∀ st, Toposort.each f cs st ≠ Toposort.Starved.
Proof.
  induction cs as [|c cs IH]; intros Hf st; simpl; [done|].
  destruct (f c st) as [st1| |] eqn:Hc; [|done|].
  - apply IH. intros c' Hc'. apply Hf. by right.
  - exfalso. apply (Hf c (list_elem_of_here _ _) st Hc).
Qed.

Lemma preds_bound (N preds : list string) :
  NoDup preds → (∀ p, p ∈ preds → p ∈ N) → (length preds ≤ length N)%nat.
Proof.
  intros Hnd Hsub. apply submseteq_length, NoDup_submseteq; done.
Qed.

Lemma visit_not_starved (edges : list ids) (N : list string) :
  (∀ x y, Toposort.edge_rel edges x y → y ∈ N) →
  ∀ fuel node preds st,
    node ∈ N → NoDup preds → (∀ p, p ∈ preds → p ∈ N) →
    (length N < fuel + length preds)%nat →
    Toposort.visit fuel (Toposort.makeOutgoingEdges edges) node preds st
    ≠ Toposort.Starved.
Proof.
  intros Hclosed. induction fuel as [|fuel IH]; intros node preds st HN Hnd Hsub Hlen.
  - pose proof (preds_bound N preds Hnd Hsub). lia.
  - simpl. case_bool_decide as Hpred; [done|].
    case_bool_decide as Hvis; [done|].
    match goal with
    | |- match Toposort.each ?f ?cs ?s with _ => _ end ≠ _ =>
        pose proof (each_not_starved f cs) as Heach;
        destruct (Toposort.each f cs s) as [st2| |] eqn:He; [done | done |]
    end.
    exfalso. eapply Heach; [|exact He].
    intros c Hc st'. apply IH.
    + apply (Hclosed node c), outgoing_elem. by apply elem_of_reverse.
    + by constructor.
    + intros p. rewrite elem_of_cons. intros [->|Hp]; [done | by apply Hsub].
    + simpl. lia.
Qed.

(** ** A thrown node lies on a cycle *)

Lemma each_throw {S : Type} (f : string → S → Toposort.step S) (cs : list string)
    (P : Prop) :
  (∀ c st n, c ∈ cs → f c st = Toposort.Throw n → P) →
  ∀ st n, Toposort.each f cs st = Toposort.Throw n → P.
Proof.
  induction cs as [|c cs IH]; intros Hf st n Heach; simpl in Heach; [done|].
  destruct (f c st) as [st1|m|] eqn:Hc; [| |done].
  - eapply IH; [|exact Heach]. intros c' s m Hc'. apply Hf. by right.
  - eapply Hf; [|exact Hc]. by left.
Qed.

Lemma visit_throw (edges : list ids) :
  ∀ fuel node preds st n,
    (∀ p, p ∈ preds → tc (Toposort.edge_rel edges) p node) →
    Toposort.visit fuel (Toposort.makeOutgoingEdges edges) node preds st
    = Toposort.Throw n →
    Toposort.has_cycle edges.
Proof.
  induction fuel as [|fuel IH]; intros node preds st n Hpath Hv; simpl in Hv; [done|].
  case_bool_decide as Hpred.
  - exists node. by apply Hpath.
  - case_bool_decide as Hvis; [done|].
    match type of Hv with
    | match Toposort.each ?f ?cs ?s with _ => _ end = _ =>
        destruct (Toposort.each f cs s) as [st2|m|] eqn:He; [done | | done];
        apply (each_throw f cs (Toposort.has_cycle edges)) with (st := s) (n := m);
        [|done]
    end.
    intros c s m' Hc Hthrow. apply (IH c (node :: preds) s m'); [|done].
    assert (Hedge : Toposort.edge_rel edges node c).
    { apply outgoing_elem. by apply elem_of_reverse. }
    intros p. rewrite elem_of_cons. intros [->|Hp].
    + by apply tc_once.
    + eapply tc_r; [by apply Hpath | done].
Qed.

(** ** What [toposort] returns *)

Lemma inv_start (edges : list ids) (N : list string) :
  Toposort.inv edges N [] {| Toposort.visited := []; Toposort.sorted := [] |}.
Proof.
  constructor; simpl.
  - intros x. split; [intros H; inversion H | intros [H|H]; inversion H].
  - constructor.
  - intros x H. inversion H.
  - intros x H. inversion H.
  - intros x y H. inversion H.
Qed.

Lemma uniqueNodes_closed (edges : list ids) (x y : string) :
  Toposort.edge_rel edges x y → y ∈ Toposort.uniqueNodes edges.
Proof.
  intros (e & He & _ & H1). apply uniqueNodes_elem. eauto.
Qed.

Lemma uniqueNodes_source (edges : list ids) (x y : string) :
  Toposort.edge_rel edges x y → x ∈ Toposort.uniqueNodes edges.
Proof.
  intros (e & He & H0 & _). apply uniqueNodes_elem. eauto.
Qed.

Lemma toposort_sorted (edges : list ids) (L : list string) :
  Toposort.toposort edges = Toposort.Go L →
  NoDup L
  ∧ (∀ x, x ∈ L ↔ x ∈ Toposort.uniqueNodes edges)
  ∧ (∀ x y, Toposort.edge_rel edges x y → Toposort.before L x y).
Proof.
  unfold Toposort.toposort, Toposort.toposort_array. cbv zeta.
  set (N := Toposort.uniqueNodes edges).
  match goal with
  | |- match Toposort.each ?f ?cs ?s with _ => _ end = _ → _ =>
      destruct (Toposort.each f cs s) as [st| |] eqn:He; [|done|done];
      destruct (each_inv edges N [] f cs) with (st := s) (st' := st)
        as (Hinv & Hall & _); [|apply inv_start|done|]
  end.
  { intros c s s' Hc Hs Hgo. case_bool_decide as Hvis.
    - injection Hgo as <-. split_and!; [done | | apply extends_refl].
      apply (Toposort.inv_visited _ _ _ _ Hs) in Hvis as [?|H]; [done | inversion H].
    - apply (visit_inv edges N) with (fuel := S (length N)) (st := s);
        [apply uniqueNodes_closed | | done | exact Hgo].
      by apply elem_of_reverse. }
  intros [= <-]. destruct Hinv as [_ Hnd _ Hnodes Hcl]. split_and!; [done | |].
  - intros x. split; [apply Hnodes|]. intros Hx. by apply Hall, elem_of_reverse.
  - intros x y Hxy. apply Hcl; [|done].
    apply Hall, elem_of_reverse. by eapply uniqueNodes_source.
Qed.

Lemma toposort_total (edges : list ids) :
  Toposort.toposort edges ≠ Toposort.Starved.
Proof.
  unfold Toposort.toposort, Toposort.toposort_array. cbv zeta.
  set (N := Toposort.uniqueNodes edges).
  match goal with
  | |- match Toposort.each ?f ?cs ?s with _ => _ end ≠ _ =>
      pose proof (each_not_starved f cs) as Heach;
      destruct (Toposort.each f cs s) as [st| |] eqn:He; [done|done|]
  end.
  exfalso. eapply Heach; [|exact He].
  intros c Hc st. case_bool_decide; [done|].
  apply (visit_not_starved edges N).
  - apply uniqueNodes_closed.
  - by apply elem_of_reverse.
  - constructor.
  - intros p Hp. inversion Hp.
  - simpl. lia.
Qed.

Lemma toposort_throw (edges : list ids) (n : string) :
  Toposort.toposort edges = Toposort.Throw n → Toposort.has_cycle edges.
Proof.
  unfold Toposort.toposort, Toposort.toposort_array. cbv zeta.
  match goal with
  | |- match Toposort.each ?f ?cs ?s with _ => _ end = _ → _ =>
      destruct (Toposort.each f cs s) as [st|m|] eqn:He; [done| |done];
      intros _;
      apply (each_throw f cs (Toposort.has_cycle edges)) with (st := s) (n := m);
      [|done]
  end.
  intros c s m' Hc. case_bool_decide; [done|]. apply visit_throw.
  intros p Hp. inversion Hp.
Qed.

Lemma tc_before (edges : list ids) (L : list string) (x y : string) :
  NoDup L →
  (∀ x y, Toposort.edge_rel edges x y → Toposort.before L x y) →
  tc (Toposort.edge_rel edges) x y → Toposort.before L x y.
Proof.
  intros Hnd Hedge Htc. induction Htc as [x y Hxy|x y z Hxy _ IH].
  - by apply Hedge.
  - eapply before_trans; [done | by apply Hedge | done].
Qed.

Lemma toposort_go_acyclic (edges : list ids) (L : list string) :
  Toposort.toposort edges = Toposort.Go L → ¬ Toposort.has_cycle edges.
Proof.
  intros Hgo [x Hx]. apply toposort_sorted in Hgo as (Hnd & _ & Hedge).
  apply (before_irrefl L x Hnd). by eapply tc_before.
Qed.

Lemma toposort_cyclic (edges : list ids) :
  Toposort.has_cycle edges → ∃ n, Toposort.toposort edges = Toposort.Throw n.
Proof.
  intros Hcyc. destruct (Toposort.toposort edges) as [L|n|] eqn:Hs.
  - by apply toposort_go_acyclic in Hs.
  - by exists n.
  - by apply toposort_total in Hs.
Qed.

Lemma toposort_acyclic (edges : list ids) :
  ¬ Toposort.has_cycle edges → ∃ L, Toposort.toposort edges = Toposort.Go L.
Proof.
  intros Hac. destruct (Toposort.toposort edges) as [L|n|] eqn:Hs.
  - by exists L.
  - by apply toposort_throw in Hs.
  - by apply toposort_total in Hs.
Qed.

(** ** Arrays and their order *)

Lemma indexOf_lookup (l : list string) (i : nat) (x : string) :
  NoDup l → l !! i = Some x → JS.indexOf l x = Z.of_nat i.
Proof.
  revert i. induction l as [|y l IH]; intros i Hnd Hi; [done|].
  apply NoDup_cons in Hnd as [Hy Hnd]. simpl.
  destruct i as [|i]; simpl in Hi.
  - injection Hi as ->. by rewrite bool_decide_eq_true_2.
  - rewrite bool_decide_eq_false_2.
    + rewrite (IH i Hnd Hi). rewrite bool_decide_eq_false_2 by lia. lia.
    + intros ->. apply Hy. by eapply list_elem_of_lookup_2.
Qed.

Lemma indexOf_reverse (l : list string) (x : string) :
  NoDup l → x ∈ l →
  JS.indexOf (reverse l) x = Z.of_nat (length l) - 1 - JS.indexOf l x.
Proof.
  intros Hnd Hx. apply list_elem_of_lookup in Hx as [i Hi].
  pose proof (lookup_lt_Some _ _ _ Hi) as Hlt.
  rewrite (indexOf_lookup l i x Hnd Hi).
  rewrite (indexOf_lookup (reverse l) (length l - S i) x).
  - lia.
  - by rewrite reverse_Permutation.
  - rewrite reverse_lookup by lia. rewrite <- Hi. f_equal. lia.
Qed.

(** ** The edges handed to [toposort] *)

Lemma map_fresh_addr (base : nat) (f : ids → ids) (arrs : list ids) :
  addr <$> map_fresh base f arrs = seq base (length arrs).
Proof.
  unfold map_fresh. revert base. induction arrs as [|a arrs IH]; intros base; [done|].
  rewrite imap_cons. simpl. f_equal; [lia|].
  rewrite <- (IH (S base)). f_equal. apply imap_ext. intros i x _. simpl.
  f_equal. lia.
Qed.

Lemma map_fresh_items (base : nat) (f : ids → ids) (arrs : list ids) :
  items <$> map_fresh base f arrs = f <$> arrs.
Proof.
  unfold map_fresh. rewrite fmap_imap. apply imap_const.
Qed.

Lemma Set_of_arrays_distinct (objs : list array_obj) :
  NoDup (addr <$> objs) → Set_of_arrays objs = objs.
Proof.
  unfold Set_of_arrays. induction objs as [|o objs IH] using rev_ind; [done|].
  rewrite fmap_app, NoDup_app. intros (Hnd & Hdisj & _).
  rewrite foldl_snoc, (IH Hnd). rewrite bool_decide_eq_false_2; [done|].
  intros Ho. apply (Hdisj _ Ho). simpl. by left.
Qed.

(** No two edge statements are merged: every array passed to [new Set] is
    a new object. *)
Lemma onlyEdges_all (children : list stmt) :
  onlyEdges children = ids_map (relative w) <$> edge_lists children.
Proof.
  unfold onlyEdges. rewrite Set_of_arrays_distinct.
  - apply map_fresh_items.
  - rewrite map_fresh_addr. apply NoDup_seq.
Qed.

Lemma edge_rel_depends_on (children : list stmt) (x y : string) :
  Toposort.edge_rel (onlyEdges children) x y ↔ depends_on children x y.
Proof.
  unfold Toposort.edge_rel, depends_on, edge_pairs. rewrite onlyEdges_all.
  rewrite list_elem_of_fmap. split.
  - intros (e & He & <- & <-). apply list_elem_of_fmap in He as (a & -> & Ha).
    by exists a.
  - intros (a & [= -> ->] & Ha). exists (ids_map (relative w) a).
    split; [by apply list_elem_of_fmap_2 | done].
Qed.

Lemma has_cycle_cyclic (children : list stmt) :
  Toposort.has_cycle (onlyEdges children) ↔ cyclic children.
Proof.
  unfold Toposort.has_cycle, cyclic. split.
  - intros [x Hx]. exists x. eapply tc_congruence with (f := id); [|exact Hx].
    intros a b. apply edge_rel_depends_on.
  - intros [x Hx]. exists x. eapply tc_congruence with (f := id); [|exact Hx].
    intros a b. apply edge_rel_depends_on.
Qed.

(** ** Facts about [execProcess] *)

Lemma listen_not_exited (rej : bool) (events : list event) (r : ret)
    (error : option spawn_error) (status : Z) :
  listen rej events r error ≠ Exited status.
Proof.
  revert r error. induction events as [|ev events IH]; intros r error; [done|].
  destruct ev; simpl; try apply IH.
  by destruct (JS.not_strict_zero exit && rej).
Qed.

Lemma listen_false_not_rejected (events : list event) (r : ret)
    (error : option spawn_error) (e : exn) :
  listen false events r error ≠ Rejected e.
Proof.
  revert r error. induction events as [|ev events IH]; intros r error; [done|].
  destruct ev; simpl; try apply IH.
  by rewrite andb_false_r.
Qed.

Lemma listen_closes (rej : bool) (events : list event) (r : ret)
    (error : option spawn_error) :
  closes events → listen rej events r error ≠ Pending.
Proof.
  intros [exit Hin]. revert r error.
  induction events as [|ev events IH]; intros r error; [inversion Hin|].
  destruct ev; simpl;
    try (apply IH; apply elem_of_cons in Hin as [Heq|Hin]; [done | exact Hin]).
  by destruct (JS.not_strict_zero exit0 && rej).
Qed.

Lemma execProcess_false_resolves (events : list event) :
  closes events → ∃ result, execProcess events false = Resolved result.
Proof.
  intros Hc. unfold execProcess.
  destruct (listen false events _ None) as [result|e| |status] eqn:Hl.
  - by exists result.
  - by apply listen_false_not_rejected in Hl.
  - by apply listen_closes in Hl.
  - by apply listen_not_exited in Hl.
Qed.

(** A rejection carries the bare result object: the error seen by the
    [error] listener is not part of it. *)
Lemma listen_rejected_bare (rej : bool) (events : list event) (r : ret)
    (error : option spawn_error) (e : exn) :
  err r = None →
  listen rej events r error = Rejected e →
  ∃ r', e = ExecFailure r' ∧ err r' = None.
Proof.
  revert r error. induction events as [|ev events IH]; intros r error Hr; [done|].
  destruct ev; simpl; try (by apply IH).
  destruct (JS.not_strict_zero exit && rej); [|done].
  intros [= <-]. by eexists.
Qed.

Lemma execProcess_rejected_bare (events : list event) (rej : bool) (e : exn) :
  execProcess events rej = Rejected e → ∃ r, e = ExecFailure r ∧ err r = None.
Proof. by apply listen_rejected_bare. Qed.

(** ** One step of each probe *)

Lemma isDeployed_eq (dir : string) :
  isDeployed dir
  = ([state_call dir],
     match execProcess (child w (state_call dir)) false with
     | Resolved result => Resolved (classify result)
     | Rejected e => Rejected e
     | Pending => Pending
     | Exited c => Exited c
     end).
Proof.
  unfold isDeployed, exec, mbind, mret, state_call.
  by destruct (execProcess _ false).
Qed.

Lemma getPlan_eq (dir : string) :
  getPlan dir
  = ([plan_call dir],
     match execProcess (child w (plan_call dir)) false with
     | Resolved result => Resolved (interpret result)
     | Rejected e => Rejected e
     | Pending => Pending
     | Exited c => Exited c
     end).
Proof.
  unfold getPlan, exec, mbind, mret, plan_call.
  by destruct (execProcess _ false).
Qed.

Lemma getStatus_log (dir : string) :
  fst (getStatus dir)
  = match snd (isDeployed dir) with
    | Resolved d =>
        if Deployed.deployed d then [state_call dir; plan_call dir]
        else [state_call dir]
    | _ => [state_call dir]
    end.
Proof.
  unfold getStatus. rewrite isDeployed_eq. simpl.
  destruct (execProcess (child w (state_call dir)) false) as [result| | |]; simpl; try done.
  destruct (Deployed.deployed (classify result)); [|done].
  rewrite getPlan_eq. simpl.
  by destruct (execProcess (child w (plan_call dir)) false).
Qed.

Lemma state_call_ne_plan_call (dir dir' : string) :
  state_call dir ≠ plan_call dir'.
Proof.
  unfold state_call, plan_call, tgPlanArgs. intros H. by injection H.
Qed.

Lemma getStatus_resolves (dir : string) :
  closes (child w (state_call dir)) → closes (child w (plan_call dir)) →
  ∃ r, snd (getStatus dir) = Resolved r.
Proof.
  intros Hs Hp. unfold getStatus. rewrite isDeployed_eq.
  destruct (execProcess_false_resolves _ Hs) as [result ->]. simpl.
  destruct (Deployed.deployed (classify result)); [|by eexists].
  rewrite getPlan_eq.
  destruct (execProcess_false_resolves _ Hp) as [result' ->]. simpl. by eexists.
Qed.

(** ** getDependencyTree *)

Lemma getDependencyTree_parsed (result : ret) (g : graph) (gs : list graph) :
  execProcess (child w graph_call) true = Resolved result →
  dotparser w (stdout result) = Some (g :: gs) →
  getDependencyTree
  = ([graph_call],
     match orderDependencies (children g) with
     | Rejected (ExecFailure _) => Exited 1
     | Rejected _ => Rejected TypeError
     | o => o
     end).
Proof.
  intros Hexec Hparse. unfold getDependencyTree, exec, mbind, mcatch, mlift.
  fold graph_call. rewrite Hexec, Hparse.
  destruct (orderDependencies (children g)) as [deps|e| |c]; try done.
  by destruct e.
Qed.

Lemma orderDependencies_acyclic (stmts : list stmt) :
  ¬ cyclic stmts →
  ∃ L, Toposort.toposort (onlyEdges stmts) = Toposort.Go L
       ∧ orderDependencies stmts
         = Resolved {| destroyOrder := L; deployOrder := reverse L;
                       noDeps := filter (λ obj, JS.arr_includes L obj = false)
                                        (relative w <$> node_ids stmts) |}.
Proof.
  intros Hac. destruct (toposort_acyclic (onlyEdges stmts)) as [L HL].
  - by rewrite has_cycle_cyclic.
  - exists L. split; [done|]. unfold orderDependencies. by rewrite HL.
Qed.

Lemma orderDependencies_resolved (stmts : list stmt) (deps : OrderedDependencies) :
  orderDependencies stmts = Resolved deps →
  Toposort.toposort (onlyEdges stmts) = Toposort.Go (destroyOrder deps)
  ∧ deployOrder deps = reverse (destroyOrder deps)
  ∧ noDeps deps = filter (λ obj, JS.arr_includes (destroyOrder deps) obj = false)
                         (relative w <$> node_ids stmts).
Proof.
  unfold orderDependencies.
  destruct (Toposort.toposort (onlyEdges stmts)) as [L|n|]; [|done|done].
  by intros [= <-].
Qed.

(** C1: when the dependency graph has no cycle, [getDependencyTree] returns
    a value whose [deployOrder] is the reverse of its [destroyOrder]: the
    two have the same length N, and every stack of the orders has index
    N - 1 - i in [deployOrder] when it has index i in [destroyOrder]. *)
Theorem deployOrder_mirrors_destroyOrder
    (result : ret) (g : graph) (gs : list graph) :
  execProcess (child w graph_call) true = Resolved result →
  dotparser w (stdout result) = Some (g :: gs) →
  ¬ cyclic (children g) →
  ∃ deps,
    snd getDependencyTree = Resolved deps
    ∧ deployOrder deps = reverse (destroyOrder deps)
    ∧ length (deployOrder deps) = length (destroyOrder deps)
    ∧ ∀ S, S ∈ destroyOrder deps ∨ S ∈ deployOrder deps →
        JS.indexOf (deployOrder deps) S
        = Z.of_nat (length (destroyOrder deps)) - 1
          - JS.indexOf (destroyOrder deps) S.
Proof.
  intros Hexec Hparse Hac.
  destruct (orderDependencies_acyclic (children g) Hac) as (L & HL & Hdeps).
  eexists. rewrite (getDependencyTree_parsed result g gs Hexec Hparse), Hdeps.
  simpl. split_and!; [done | done | apply length_reverse |].
  intros S HS. apply indexOf_reverse.
  - by apply toposort_sorted in HL as [? _].
  - destruct HS as [HS|HS]; [done | by apply elem_of_reverse].
Qed.

(** C2: when the edges of the dependency graph contain a cycle, the
    ordering step throws the cyclic-dependency error; [getDependencyTree]
    returns no value, and [go] spawns no probe and produces no status
    results. *)
Theorem cycle_is_fatal (result : ret) (g : graph) (gs : list graph) :
  execProcess (child w graph_call) true = Resolved result →
  dotparser w (stdout result) = Some (g :: gs) →
  cyclic (children g) →
  (∃ node, orderDependencies (children g) = Rejected (CyclicDependency node))
  ∧ (∀ deps, snd getDependencyTree ≠ Resolved deps)
  ∧ (∀ results, snd go ≠ Resolved results)
  ∧ fst go = [graph_call].
Proof.
  intros Hexec Hparse Hcyc.
  destruct (toposort_cyclic (onlyEdges (children g))) as [node Hnode].
  { by apply has_cycle_cyclic. }
  assert (Hord : orderDependencies (children g) = Rejected (CyclicDependency node)).
  { unfold orderDependencies. by rewrite Hnode. }
  assert (Hget : getDependencyTree = ([graph_call], Rejected TypeError)).
  { by rewrite (getDependencyTree_parsed result g gs Hexec Hparse), Hord. }
  split_and!.
  - by exists node.
  - intros deps. by rewrite Hget.
  - intros results. unfold go. by rewrite Hget.
  - unfold go. by rewrite Hget.
Qed.

Lemma destroyOrder_elem (stmts : list stmt) (deps : OrderedDependencies) (x : string) :
  orderDependencies stmts = Resolved deps →
  x ∈ destroyOrder deps
  ↔ ∃ a, a ∈ edge_lists stmts ∧ (relative w (at0 a) = x ∨ relative w (at1 a) = x).
Proof.
  intros Hdeps. apply orderDependencies_resolved in Hdeps as (HL & _ & _).
  apply toposort_sorted in HL as (_ & Helem & _).
  rewrite Helem, uniqueNodes_elem, onlyEdges_all. split.
  - intros (e & He & Hx). apply list_elem_of_fmap in He as (a & -> & Ha).
    by exists a.
  - intros (a & Ha & Hx). exists (ids_map (relative w) a).
    split; [by apply list_elem_of_fmap_2 | done].
Qed.

Lemma noDeps_elem (stmts : list stmt) (deps : OrderedDependencies) (x : string) :
  orderDependencies stmts = Resolved deps →
  x ∈ noDeps deps
  ↔ (x ∉ destroyOrder deps) ∧ (∃ id, id ∈ node_ids stmts ∧ relative w id = x).
Proof.
  intros Hdeps. apply orderDependencies_resolved in Hdeps as (_ & _ & ->).
  rewrite list_elem_of_filter, list_elem_of_fmap. unfold JS.arr_includes.
  rewrite bool_decide_eq_false. naive_solver.
Qed.

Lemma allNodes_elem (stmts : list stmt) (x : string) :
  x ∈ allNodes stmts
  ↔ (∃ a y, a ∈ edge_lists stmts ∧ y ∈ ids_list a ∧ relative w y = x)
    ∨ (∃ id, id ∈ node_ids stmts ∧ relative w id = x).
Proof.
  unfold allNodes. rewrite list_elem_of_fmap. split.
  - intros (y & -> & Hy). apply elem_of_app in Hy as [Hy|Hy].
    + left. apply list_elem_of_join in Hy as (l & Hyl & Hl).
      apply list_elem_of_fmap in Hl as (a & -> & Ha). by exists a, y.
    + right. by exists y.
  - intros [(a & y & Ha & Hy & <-)|(id & Hid & <-)].
    + exists y. split; [done|]. apply elem_of_app. left.
      apply list_elem_of_join. exists (ids_list a).
      split; [done | by apply list_elem_of_fmap_2].
    + exists id. split; [done|]. apply elem_of_app. by right.
Qed.

(** C3, as amended: when every edge statement of the parsed graph names
    exactly two endpoints, [noDeps] together with [destroyOrder] holds
    exactly the node identifiers the graph mentions, no identifier is in
    both, and [deployOrder] holds the same identifiers as [destroyOrder]. *)
Theorem orders_partition_allNodes (stmts : list stmt) (deps : OrderedDependencies) :
  binary_edges stmts →
  orderDependencies stmts = Resolved deps →
  (∀ x, x ∈ noDeps deps ∨ x ∈ destroyOrder deps ↔ x ∈ allNodes stmts)
  ∧ (∀ x, ¬ (x ∈ noDeps deps ∧ x ∈ destroyOrder deps))
  ∧ (∀ x, x ∈ deployOrder deps ↔ x ∈ destroyOrder deps).
Proof.
  intros Hbin Hdeps. split_and!.
  - intros x. rewrite allNodes_elem, (noDeps_elem stmts deps x Hdeps). split.
    + intros [[_ Hn]|Hd]; [by right|]. left.
      apply (destroyOrder_elem stmts deps x Hdeps) in Hd as (a & Ha & Hx).
      destruct Hx as [Hx|Hx]; [exists a, (at0 a) | exists a, (at1 a)];
        unfold ids_list; set_solver.
    + intros [(a & y & Ha & Hy & Hx)|Hn].
      * right. apply (destroyOrder_elem stmts deps x Hdeps).
        exists a. split; [done|]. unfold ids_list in Hy.
        rewrite (Hbin a Ha) in Hy. set_solver.
      * destruct (decide (x ∈ destroyOrder deps)) as [Hin|Hout]; [by right|].
        left. by split.
  - intros x [Hn Hd]. by apply (noDeps_elem stmts deps x Hdeps) in Hn as [Hn _].
  - intros x. apply orderDependencies_resolved in Hdeps as (_ & -> & _).
    apply elem_of_reverse.
Qed.

(** C7 at the failing input: two identical edge statements are both kept
    in [onlyEdges]. *)
Theorem identical_edges_not_merged :
  onlyEdges [edge_stmt (Ids "a" "b" []); edge_stmt (Ids "a" "b" [])]
  = [Ids (relative w "a") (relative w "b") [];
     Ids (relative w "a") (relative w "b") []].
Proof. by rewrite onlyEdges_all. Qed.

(** ** The probes *)

(** C4: [getPlan] reads the exit code of the plan subprocess: 0 gives
    success without changes, 2 gives success with changes, and any other
    exit code gives neither success nor changes. *)
Theorem getPlan_exit_codes (dir : string) (result : ret) :
  execProcess (child w (plan_call dir)) false = Resolved result →
  ∃ p,
    snd (getPlan dir) = Resolved p
    ∧ (exitCode result = 0 →
       p = {| Plan.hasChanges := false; Plan.success := true |})
    ∧ (exitCode result = 2 →
       p = {| Plan.hasChanges := true; Plan.success := true |})
    ∧ (exitCode result ≠ 0 → exitCode result ≠ 2 →
       p = {| Plan.hasChanges := false; Plan.success := false |}).
Proof.
  intros Hexec. exists (interpret result). rewrite getPlan_eq, Hexec.
  unfold interpret. split_and!; [done | | |].
  - by intros ->.
  - by intros ->.
  - intros H0 H2. apply Z.eqb_neq in H0, H2. by rewrite H0, H2.
Qed.

Lemma classify_quiet (result : ret) :
  matches_none (stderr result) → exitCode result = 0 →
  classify result
  = if (1 <? line_count (stdout result))%nat
    then Deployed.Make true true None
    else Deployed.Make false true (Some no_output_reason).
Proof.
  intros Hnone Hexit. unfold classify, line_count.
  rewrite !Hnone, Hexit by (unfold failure_patterns; set_solver). done.
Qed.

(** C5: when the state listing exits with code 0, its [stderr] shows none
    of the known failure texts and its [stdout] has at most one line,
    [isDeployed] reports not deployed, probe success, and the reason that
    nothing was listed; it reports deployed exactly when [stdout] has more
    than one line. *)
Theorem isDeployed_empty_listing (dir : string) (result : ret) :
  execProcess (child w (state_call dir)) false = Resolved result →
  exitCode result = 0 →
  matches_none (stderr result) →
  ∃ d,
    snd (isDeployed dir) = Resolved d
    ∧ ((line_count (stdout result) ≤ 1)%nat →
       d = {| Deployed.deployed := false; Deployed.success := true;
              Deployed.failReason := Some no_output_reason |})
    ∧ (Deployed.deployed d = true ↔ (1 < line_count (stdout result))%nat).
Proof.
  intros Hexec Hexit Hnone. exists (classify result).
  rewrite isDeployed_eq, Hexec, (classify_quiet result Hnone Hexit).
  destruct (1 <? line_count (stdout result))%nat eqn:Hlines.
  - apply Nat.ltb_lt in Hlines. split_and!; [done | lia | done].
  - apply Nat.ltb_ge in Hlines. split_and!; [done | done |].
    simpl. split; [done | lia].
Qed.

(** C6: [getStatus] spawns the plan command exactly when the state listing
    has resolved and [isDeployed] has reported deployed, and then only after
    the state command; when the listing's [stderr] contains "No state file
    was found!", [isDeployed] reports not deployed with the reason "No state
    file found." and the plan command is not spawned. *)
Theorem plan_probe_only_when_deployed (dir : string) :
  (plan_call dir ∈ fst (getStatus dir)
   ↔ ∃ d, snd (isDeployed dir) = Resolved d ∧ Deployed.deployed d = true)
  ∧ (plan_call dir ∈ fst (getStatus dir) →
     fst (getStatus dir) = [state_call dir; plan_call dir])
  ∧ (∀ result,
       execProcess (child w (state_call dir)) false = Resolved result →
       JS.includes (stderr result) "No state file was found!" = true →
       snd (isDeployed dir)
       = Resolved {| Deployed.deployed := false; Deployed.success := false;
                     Deployed.failReason := Some "No state file found." |}
       ∧ fst (getStatus dir) = [state_call dir]
       ∧ plan_call dir ∉ fst (getStatus dir)).
Proof.
  pose proof (state_call_ne_plan_call dir dir) as Hne.
  assert (Hnot : plan_call dir ∉ [state_call dir]) by set_solver.
  split_and!.
  - rewrite getStatus_log.
    destruct (snd (isDeployed dir)) as [d|e| |c]; [|split; [done|by intros (?&?&?)]..].
    destruct (Deployed.deployed d) eqn:Hd.
    + split; [by exists d | set_solver].
    + split; [done | intros (d' & [= <-] & Hd'); congruence].
  - rewrite getStatus_log.
    destruct (snd (isDeployed dir)) as [d|e| |c]; [|done..].
    by destruct (Deployed.deployed d).
  - intros result Hexec Hinc.
    assert (Hdep : snd (isDeployed dir)
                   = Resolved (Deployed.Make false false (Some "No state file found."))).
    { rewrite isDeployed_eq, Hexec. unfold classify. by rewrite Hinc. }
    rewrite getStatus_log, Hdep. simpl. done.
Qed.

(** C10: the record [isDeployed] returns is of one of two shapes: deployed
    with probe success and no [failReason], or not deployed with a
    non-empty [failReason]; so deployed implies probe success. *)
Theorem isDeployed_result_shape (dir : string) (result : ret) :
  execProcess (child w (state_call dir)) false = Resolved result →
  ∃ d,
    snd (isDeployed dir) = Resolved d
    ∧ ((Deployed.deployed d = true ∧ Deployed.success d = true
        ∧ Deployed.failReason d = None)
       ∨ (Deployed.deployed d = false
          ∧ ∃ reason, Deployed.failReason d = Some reason ∧ reason ≠ EmptyString))
    ∧ (Deployed.deployed d = true → Deployed.success d = true).
Proof.
  intros Hexec. exists (classify result). rewrite isDeployed_eq, Hexec.
  split; [done|]. unfold classify.
  repeat match goal with
         | |- context [if ?b then _ else _] => destruct b
         end; simpl;
    (split; [| done]);
    first [ left; done | right; split; [done|]; eexists; split; [done|done] ].
Qed.

(** ** The fan-out over all stacks *)

Lemma all_outcomes_cons {A : Type} (a : A) (os : list (outcome A)) (l : list A) :
  all_outcomes os = Resolved l →
  all_outcomes (Resolved a :: os) = Resolved (a :: l).
Proof. intros H. unfold all_outcomes in *. simpl. by rewrite H. Qed.

Lemma Promise_all_resolves {A : Type} (task : string → M A) (stacks : list string) :
  (∀ stack, stack ∈ stacks → ∃ r, snd (task stack) = Resolved r) →
  ∃ results,
    snd (Promise_all (task <$> stacks)) = Resolved results
    ∧ length results = length stacks
    ∧ ∀ i stack, stacks !! i = Some stack →
        ∃ r, results !! i = Some r ∧ snd (task stack) = Resolved r.
Proof.
  unfold Promise_all. cbn [snd].
  induction stacks as [|stack stacks IH]; intros Hall.
  - exists []. split_and!; [done | done |]. intros i stack Hi. inversion Hi.
  - destruct (Hall stack) as [r Hr]; [by left|].
    destruct IH as (results & Hres & Hlen & Hnth).
    { intros s Hs. apply Hall. by right. }
    exists (r :: results). rewrite !fmap_cons, Hr.
    split_and!; [by apply all_outcomes_cons | simpl; by rewrite Hlen |].
    intros [|i] s Hi; simpl in Hi.
    + injection Hi as <-. by exists r.
    + by apply Hnth.
Qed.

Lemma getStatusAll_resolves (deps : OrderedDependencies) :
  (∀ stack args, stack ∈ deployOrder deps ++ noDeps deps →
     closes (child w {| file := terragrunt w; args := args;
                        opt_cwd := resolve w stack |})) →
  ∃ results,
    snd (getStatusAll (with_noDeps deps)) = Resolved results
    ∧ length results = length (deployOrder deps ++ noDeps deps)
    ∧ (∀ i stack, (deployOrder deps ++ noDeps deps) !! i = Some stack →
         ∃ r, results !! i = Some r
              ∧ snd (getStatus (resolve w stack)) = Resolved r)
    ∧ (snd getDependencyTree = Resolved deps → order_only = false →
       snd go = Resolved results).
Proof.
  intros Hcloses.
  destruct (Promise_all_resolves (λ stack, getStatus (resolve w stack))
              (deployOrder deps ++ noDeps deps)) as (results & Hres & Hlen & Hnth).
  { intros stack Hstack. apply getStatus_resolves; by apply Hcloses. }
  change (snd (getStatusAll (with_noDeps deps)) = Resolved results) in Hres.
  exists results. split_and!; [done | done | done |].
  intros Hget Hflag. unfold go, mbind.
  destruct getDependencyTree as [log o]. simpl in Hget. subst o.
  rewrite Hflag.
  destruct (getStatusAll (with_noDeps deps)) as [log' o']. by simpl in *.
Qed.

(** C8 at the failing input: with [rejectIfExitNonzero] set, a child that
    could not be started ([error] with ENOENT, then [close] with -2) is
    rejected with the bare result object, the same value the run without
    the [error] event gives; with the flag unset the result carries the
    error. *)
Theorem launch_failure_rejected_without_error :
  execProcess [error_event (SpawnError "ENOENT" None); close_event (Some (-2))] true
  = Rejected (ExecFailure {| stdout := EmptyString; stderr := EmptyString;
                             exitCode := -2; err := None |})
  ∧ execProcess [error_event (SpawnError "ENOENT" None); close_event (Some (-2))] true
    = execProcess [close_event (Some (-2))] true
  ∧ execProcess [error_event (SpawnError "ENOENT" None); close_event (Some (-2))] false
    = Resolved {| stdout := EmptyString; stderr := EmptyString; exitCode := -2;
                  err := Some (SpawnError "ENOENT"
                                 (Some (EmptyString, EmptyString, -2))) |}.
Proof. by split_and!. Qed.


(** ** More about [execProcess] *)

Lemma append_assoc (a b c : string) : (a +:+ b) +:+ c = a +:+ (b +:+ c).
Proof.
  induction a as [|x a IH]; [done|].
  change (String x ((a +:+ b) +:+ c) = String x (a +:+ (b +:+ c))).
  by rewrite IH.
Qed.

Lemma append_empty_r (a : string) : a +:+ EmptyString = a.
Proof.
  induction a as [|x a IH]; [done|].
  change (String x (a +:+ EmptyString) = String x a). by rewrite IH.
Qed.

Lemma not_closes_cons (ev : event) (events : list event) :
  ¬ closes (ev :: events) → (∀ exit, ev ≠ close_event exit) ∧ ¬ closes events.
Proof.
  intros Hn. split.
  - intros exit ->. apply Hn. exists exit. by left.
  - intros [exit Hin]. apply Hn. exists exit. by right.
Qed.

Lemma listen_closed_form (rej : bool) (pre post : list event) (exit : option Z)
    (r : ret) (error : option spawn_error) :
  ¬ closes pre →
  listen rej (pre ++ close_event exit :: post) r error
  = if JS.not_strict_zero exit && rej then
      Rejected (ExecFailure {| stdout := stdout r +:+ out_text pre;
                               stderr := stderr r +:+ err_text pre;
                               exitCode := JS.or_zero exit; err := err r |})
    else
      Resolved {| stdout := stdout r +:+ out_text pre;
                  stderr := stderr r +:+ err_text pre;
                  exitCode := JS.or_zero exit;
                  err := (λ e, {| code := code e;
                                  assigned := Some (stdout r +:+ out_text pre,
                                                    stderr r +:+ err_text pre,
                                                    JS.or_zero exit) |})
                         <$> from_option Some error (last_error pre) |}.
Proof.
  revert r error. induction pre as [|ev pre IH]; intros r error Hpre.
  - simpl. by rewrite !append_empty_r.
  - apply not_closes_cons in Hpre as [Hev Hpre].
    destruct ev as [data|data|e|exit']; simpl.
    + rewrite (IH _ _ Hpre). simpl. by rewrite !append_assoc.
    + rewrite (IH _ _ Hpre). simpl. by rewrite !append_assoc.
    + rewrite (IH _ _ Hpre). by destruct (last_error pre).
    + by destruct (Hev exit').
Qed.

Lemma execProcess_closed_form (rej : bool) (pre post : list event) (exit : option Z) :
  ¬ closes pre →
  execProcess (pre ++ close_event exit :: post) rej
  = if JS.not_strict_zero exit && rej then
      Rejected (ExecFailure {| stdout := out_text pre; stderr := err_text pre;
                               exitCode := JS.or_zero exit; err := None |})
    else
      Resolved {| stdout := out_text pre; stderr := err_text pre;
                  exitCode := JS.or_zero exit;
                  err := (λ e, {| code := code e;
                                  assigned := Some (out_text pre, err_text pre,
                                                    JS.or_zero exit) |})
                         <$> last_error pre |}.
Proof.
  intros Hpre. unfold execProcess. rewrite (listen_closed_form _ _ _ _ _ _ Hpre).
  simpl. by destruct (last_error pre).
Qed.

Lemma closes_split (events : list event) :
  closes events →
  ∃ pre exit post, events = pre ++ close_event exit :: post ∧ ¬ closes pre.
Proof.
  induction events as [|ev events IH]; intros [exit Hin]; [inversion Hin|].
  destruct ev as [data|data|e|exit'].
  1-3: apply elem_of_cons in Hin as [Heq|Hin]; [done|];
       destruct IH as (pre & exit1 & post & -> & Hpre); [by exists exit|];
       eexists (_ :: pre), exit1, post; split; [done|];
       intros [x Hx]; apply elem_of_cons in Hx as [Hx|Hx]; [done|];
       apply Hpre; by exists x.
  exists [], exit', events. split; [done|]. intros [x Hx]. inversion Hx.
Qed.

Lemma listen_pending (rej : bool) (events : list event) (r : ret)
    (error : option spawn_error) :
  ¬ closes events → listen rej events r error = Pending.
Proof.
  revert r error. induction events as [|ev events IH]; intros r error Hn; [done|].
  apply not_closes_cons in Hn as [Hev Hn].
  destruct ev as [data|data|e|exit']; simpl; try by apply IH.
  by destruct (Hev exit').
Qed.

(** X1: once the child closes, the value [execProcess] settles with holds
    everything the child wrote before: the [stdout] chunks joined in order
    of arrival, the [stderr] chunks likewise, and as [exitCode] the code of
    the [close] event, with 0 for a missing code; the initial 255 is gone. *)
Theorem execProcess_collects (rej : bool) (pre post : list event) (exit : option Z) :
  ¬ closes pre →
  ∃ r,
    (execProcess (pre ++ close_event exit :: post) rej = Resolved r
     ∨ execProcess (pre ++ close_event exit :: post) rej = Rejected (ExecFailure r))
    ∧ stdout r = out_text pre
    ∧ stderr r = err_text pre
    ∧ exitCode r = default 0 exit.
Proof.
  intros Hpre. rewrite (execProcess_closed_form rej pre post exit Hpre).
  destruct (JS.not_strict_zero exit && rej); eexists; (split; [by eauto|done]).
Qed.

(** X2: [execProcess] stays pending exactly when the child never delivers
    a [close] event, whatever else it delivers. *)
Theorem execProcess_pending_iff (events : list event) (rej : bool) :
  execProcess events rej = Pending ↔ ¬ closes events.
Proof.
  split.
  - intros Hp Hc. unfold execProcess in Hp. by apply listen_closes in Hp.
  - apply listen_pending.
Qed.

(** X3: with [rejectIfExitNonzero] set, the promise resolves exactly when
    the child closes with code 0; any other code rejects it, and a child
    ended by a signal (no code) is rejected with [exitCode] 0. *)
Theorem execProcess_rejects_unless_zero (pre post : list event) (exit : option Z) :
  ¬ closes pre →
  ((∃ r, execProcess (pre ++ close_event exit :: post) true = Resolved r)
   ↔ exit = Some 0)
  ∧ (exit ≠ Some 0 →
     execProcess (pre ++ close_event exit :: post) true
     = Rejected (ExecFailure {| stdout := out_text pre; stderr := err_text pre;
                                exitCode := default 0 exit; err := None |}))
  ∧ (exit = None →
     ∃ r, execProcess (pre ++ close_event exit :: post) true
          = Rejected (ExecFailure r) ∧ exitCode r = 0).
Proof.
  intros Hpre. rewrite (execProcess_closed_form true pre post exit Hpre).
  destruct exit as [c|]; simpl.
  - destruct (Z.eqb_spec c 0) as [->|Hc]; simpl.
    + split_and!; [split; [done | by eexists] | done | done].
    + split_and!; [split; [by intros [r ?] | by intros [= ->]] | done | done].
  - split_and!; [split; [by intros [r ?] | done] | done | by eexists].
Qed.

(** X4: with [rejectIfExitNonzero] unset, the result carries an error
    exactly when the child raised one before closing: the last one raised,
    with [stdout], [stderr] and [exitCode] copied onto it. *)
Theorem execProcess_attaches_last_error (pre post : list event) (exit : option Z) :
  ¬ closes pre →
  ∃ r,
    execProcess (pre ++ close_event exit :: post) false = Resolved r
    ∧ (err r = None ↔ ∀ e, error_event e ∉ pre)
    ∧ (∀ e rest tail,
         pre = rest ++ error_event e :: tail →
         (∀ e', error_event e' ∉ tail) →
         err r = Some {| code := code e;
                         assigned := Some (stdout r, stderr r, exitCode r) |}).
Proof.
  intros Hpre. rewrite (execProcess_closed_form false pre post exit Hpre).
  rewrite andb_false_r. eexists. split; [done|]. simpl.
  assert (Hnone : ∀ l, last_error l = None ↔ ∀ e, error_event e ∉ l).
  { induction l as [|ev l IHl]; simpl.
    - split; [intros _ e H; inversion H | done].
    - destruct ev as [d|d|e0|x]; try (rewrite IHl; set_solver).
      split.
      + by destruct (last_error l).
      + intros H. exfalso. apply (H e0). by left. }
  assert (Hlast : ∀ l e tail, (∀ e', error_event e' ∉ tail) →
                   last_error (l ++ error_event e :: tail) = Some e).
  { induction l as [|ev l IHl]; intros e tail Ht; simpl.
    - apply Hnone in Ht. by rewrite Ht.
    - destruct ev; try by apply IHl. by rewrite (IHl e tail Ht). }
  split.
  - rewrite <- Hnone. by destruct (last_error pre).
  - intros e rest tail -> Ht. by rewrite (Hlast rest e tail Ht).
Qed.


(** ** More about [getDependencyTree] and [go] *)

Lemma getDependencyTree_log : fst getDependencyTree = [graph_call].
Proof.
  unfold getDependencyTree, exec, mbind, mcatch, mlift. fold graph_call.
  destruct (execProcess (child w graph_call) true) as [result|e| |c]; simpl.
  - destruct (dotparser w (stdout result)) as [[|g gs]|]; simpl; try done.
    destruct (orderDependencies (children g)) as [deps|e| |c]; simpl; try done.
    by destruct e.
  - by destruct e.
  - done.
  - done.
Qed.

(** X5: when the graph command closes with a code other than 0, is ended
    by a signal, or could not be started, [getDependencyTree] ends the
    process with status 1; [go] has spawned nothing but the graph
    command. *)
Theorem graph_failure_exits_1 (pre post : list event) (exit : option Z) :
  child w graph_call = pre ++ close_event exit :: post →
  ¬ closes pre →
  exit ≠ Some 0 →
  getDependencyTree = ([graph_call], Exited 1)
  ∧ go = ([graph_call], Exited 1).
Proof.
  intros Hchild Hpre Hexit.
  pose proof (execProcess_closed_form true pre post exit Hpre) as Hrej.
  rewrite andb_true_r in Hrej.
  assert (Hnz : JS.not_strict_zero exit = true).
  { destruct exit as [c|]; [|done]. simpl.
    destruct (Z.eqb_spec c 0) as [->|?]; done. }
  rewrite Hnz, <- Hchild in Hrej.
  assert (Hget : getDependencyTree = ([graph_call], Exited 1)).
  { unfold getDependencyTree, exec, mbind, mcatch, mlift. fold graph_call.
    by rewrite Hrej. }
  split; [done|]. unfold go. by rewrite Hget.
Qed.

(** X6: when the graph command succeeds but its output does not parse, or
    parses to no graph at all, the [catch] block of [getDependencyTree]
    fails itself with a [TypeError]: [process.exit(1)] is not reached and
    [go] is left rejected, having spawned only the graph command. *)
Theorem unparsed_graph_rejects (result : ret) :
  execProcess (child w graph_call) true = Resolved result →
  dotparser w (stdout result) = None ∨ dotparser w (stdout result) = Some [] →
  getDependencyTree = ([graph_call], Rejected TypeError)
  ∧ go = ([graph_call], Rejected TypeError).
Proof.
  intros Hexec Hparse.
  assert (Hget : getDependencyTree = ([graph_call], Rejected TypeError)).
  { unfold getDependencyTree, exec, mbind, mcatch, mlift. fold graph_call.
    rewrite Hexec. by destruct Hparse as [-> | ->]. }
  split; [done|]. unfold go. by rewrite Hget.
Qed.

Lemma filter_all {A : Type} (P : A → Prop) `{!∀ x, Decision (P x)} (l : list A) :
  (∀ x, x ∈ l → P x) → filter P l = l.
Proof.
  induction l as [|x l IH]; intros Hall; [done|].
  rewrite filter_cons_True by (apply Hall; by left).
  f_equal. apply IH. intros y Hy. apply Hall. by right.
Qed.

(** X7: a graph without edge statements is ordered without error: both
    orders are empty and [noDeps] lists every node statement, in the order
    of the statements. *)
Theorem no_edges_all_noDeps (stmts : list stmt) :
  edge_lists stmts = [] →
  orderDependencies stmts
  = Resolved {| destroyOrder := []; deployOrder := [];
                noDeps := relative w <$> node_ids stmts |}.
Proof.
  intros Hnone. unfold orderDependencies. rewrite onlyEdges_all, Hnone. simpl.
  change (Toposort.toposort []) with (@Toposort.Go (list string) []).
  simpl. rewrite filter_all; [done|]. intros x _. unfold JS.arr_includes.
  apply bool_decide_eq_false. intros H. inversion H.
Qed.

Lemma before_reverse (l : list string) (x y : string) :
  Toposort.before l x y → Toposort.before (reverse l) y x.
Proof.
  intros (i & j & Hi & Hj & Hij).
  pose proof (lookup_lt_Some _ _ _ Hi). pose proof (lookup_lt_Some _ _ _ Hj).
  exists (length l - S j)%nat, (length l - S i)%nat. split_and!; [| |lia].
  - rewrite reverse_lookup by lia. rewrite <- Hj. f_equal. lia.
  - rewrite reverse_lookup by lia. rewrite <- Hi. f_equal. lia.
Qed.

(** X8: the orders respect every edge statement: the stack named first
    (the dependent) stands before the stack named second (its dependency)
    in [destroyOrder], and after it in [deployOrder]. *)
Theorem orders_respect_edges (stmts : list stmt) (deps : OrderedDependencies) :
  orderDependencies stmts = Resolved deps →
  ∀ a, a ∈ edge_lists stmts →
    Toposort.before (destroyOrder deps) (relative w (at0 a)) (relative w (at1 a))
    ∧ Toposort.before (deployOrder deps) (relative w (at1 a)) (relative w (at0 a)).
Proof.
  intros Hdeps a Ha.
  apply orderDependencies_resolved in Hdeps as (HL & -> & _).
  apply toposort_sorted in HL as (_ & _ & Hedge).
  assert (Hb : Toposort.before (destroyOrder deps)
                 (relative w (at0 a)) (relative w (at1 a))).
  { apply Hedge. exists (ids_map (relative w) a). rewrite onlyEdges_all.
    split; [by apply list_elem_of_fmap_2 | done]. }
  split; [done | by apply before_reverse].
Qed.

(** X9: when no two node statements name the same stack, no stack stands
    twice in the lists [go] hands on: [deployOrder] followed by [noDeps],
    and [destroyOrder] followed by [noDeps], are free of repetitions. *)
Theorem no_stack_twice (stmts : list stmt) (deps : OrderedDependencies) :
  NoDup (relative w <$> node_ids stmts) →
  orderDependencies stmts = Resolved deps →
  NoDup (deployOrder (with_noDeps deps))
  ∧ NoDup (destroyOrder (with_noDeps deps)).
Proof.
  intros Hnodes Hdeps.
  pose proof (orderDependencies_resolved _ _ Hdeps) as (HL & Hrev & Hno).
  apply toposort_sorted in HL as (Hnd & _ & _).
  assert (Hnd' : NoDup (noDeps deps)).
  { rewrite Hno. by apply NoDup_filter. }
  assert (Hdisj : ∀ x, x ∈ destroyOrder deps → x ∉ noDeps deps).
  { intros x Hx Hn. by apply (noDeps_elem stmts deps x Hdeps) in Hn as [Hn _]. }
  unfold with_noDeps. simpl. split.
  - apply NoDup_app. split_and!; [|  | done].
    + rewrite Hrev. by rewrite reverse_Permutation.
    + intros x Hx. apply Hdisj. rewrite Hrev in Hx. by apply elem_of_reverse.
  - apply NoDup_app. by split_and!.
Qed.

(** X10: with [-d], [--deploy-order], [-x] or [--destroy-order], [go] ends
    the process with status 0 once the dependency tree is there: no stack
    is probed. *)
Theorem order_flags_skip_probes (deps : OrderedDependencies) :
  snd getDependencyTree = Resolved deps →
  order_only = true →
  go = ([graph_call], Exited 0).
Proof.
  intros Hget Hflag. unfold go, mbind, mlift.
  pose proof getDependencyTree_log as Hlog.
  destruct getDependencyTree as [log o]. simpl in *. subst. by rewrite Hflag.
Qed.

Lemma getStatus_calls (dir : string) (call : spawn_call) :
  call ∈ fst (getStatus dir) → call = state_call dir ∨ call = plan_call dir.
Proof.
  rewrite getStatus_log.
  destruct (snd (isDeployed dir)) as [d| | |]; [destruct (Deployed.deployed d)|..];
    set_solver.
Qed.

Lemma Promise_all_calls {A : Type} (task : string → M A) (stacks : list string)
    (call : spawn_call) :
  call ∈ fst (Promise_all (task <$> stacks))
  ↔ ∃ stack, stack ∈ stacks ∧ call ∈ fst (task stack).
Proof.
  unfold Promise_all. cbn [fst]. rewrite list_elem_of_join. split.
  - intros (log & Hcall & Hlog).
    apply list_elem_of_fmap in Hlog as (m & -> & Hm).
    apply list_elem_of_fmap in Hm as (stack & -> & Hstack). by exists stack.
  - intros (stack & Hstack & Hcall). exists (fst (task stack)). split; [done|].
    by do 2 apply list_elem_of_fmap_2.
Qed.

(** X11: every child [go] spawns runs the [terragrunt] executable: it is
    the graph command in the scan root, or the state or plan command in
    the directory of a stack of the dependency tree. *)
Theorem go_spawns_only_terragrunt (call : spawn_call) :
  call ∈ fst go →
  file call = terragrunt w
  ∧ (call = graph_call
     ∨ ∃ deps dir,
         snd getDependencyTree = Resolved deps
         ∧ dir ∈ probed_dirs deps
         ∧ (call = state_call dir ∨ call = plan_call dir)).
Proof.
  unfold go, mbind, mlift. pose proof getDependencyTree_log as Hlog.
  destruct getDependencyTree as [log [deps|e| |c]]; simpl in *; subst log;
    try (intros Hcall; apply list_elem_of_singleton in Hcall as ->; by split; [|left]).
  destruct order_only.
  { simpl. intros Hcall. apply list_elem_of_singleton in Hcall as ->.
    by split; [|left]. }
  destruct (getStatusAll (with_noDeps deps)) as [log' o'] eqn:Hall.
  intros Hcall. apply elem_of_cons in Hcall as [->|Hcall]; [by split; [|left]|].
  assert (Hin : call ∈ fst (getStatusAll (with_noDeps deps))) by by rewrite Hall.
  unfold getStatusAll in Hin. apply Promise_all_calls in Hin as (stack & Hstack & Hin).
  apply getStatus_calls in Hin.
  split; [by destruct Hin as [-> | ->]|].
  right. exists deps, (resolve w stack). split_and!; [done | | done].
  unfold probed_dirs. by apply list_elem_of_fmap_2.
Qed.

(** X12: [script] spawns nothing before its checks have passed: with a
    help or version flag the process ends with status 0, with [terraform]
    or [terragrunt] not found it ends with status 1, and only otherwise
    does it go on as [go]. *)
Theorem script_checks_first (s : startup) :
  (arg_help s || arg_h s || arg_version s || arg_v s = true →
   script s = ([], Exited 0))
  ∧ (arg_help s || arg_h s || arg_version s || arg_v s = false →
     which_terraform s = None ∨ which_terragrunt s = None →
     script s = ([], Exited 1))
  ∧ (fst (script s) ≠ [] →
     arg_help s || arg_h s || arg_version s || arg_v s = false
     ∧ is_Some (which_terraform s) ∧ is_Some (which_terragrunt s)
     ∧ script s = go).
Proof.
  unfold script, failEarly, mbind, mlift.
  destruct (arg_help s), (arg_h s), (arg_version s), (arg_v s); simpl;
    try (split_and!; [done | done | done]).
  destruct (which_terraform s) as [tf|], (which_terragrunt s) as [tg|]; simpl;
    try (split_and!; [done | intros _ _; by eauto | done]).
  split_and!; [done | by intros _ [?|?] |].
  intros _. split_and!; [done | by eexists | by eexists |]. by destruct go.
Qed.


(** ** More about the probes *)

Lemma split_length (sep : ascii) (text : string) :
  length (JS.split sep text) = S (occurrences sep text).
Proof.
  induction text as [|c text IH]; [done|]. simpl.
  destruct (Ascii.eqb c sep); simpl; [by rewrite IH|].
  destruct (JS.split sep text) as [|line lines]; [done|]. by simpl in *.
Qed.

Lemma matches_none_spec (text : string) :
  matches_none text
  ↔ JS.includes text "No state file was found!" = false
    ∧ JS.includes text "but detected no outputs" = false
    ∧ JS.includes text "Error finding AWS credentials" = false
    ∧ JS.includes text "Initialization required" = false
    ∧ JS.includes text "Could not load plugin" = false.
Proof.
  unfold matches_none, failure_patterns. split.
  - intros H. split_and!; apply H; set_solver.
  - intros (H1 & H2 & H3 & H4 & H5) pat Hpat.
    repeat (apply elem_of_cons in Hpat as [->|Hpat]; [done|]). inversion Hpat.
Qed.

(** X13: [isDeployed] reports success exactly when [stderr] holds none of
    the known failure texts and the exit code is 0, and reports deployed
    exactly when moreover [stdout] holds a newline: a known text in
    [stderr] overrides a zero exit code and any listing. *)
Theorem deployed_iff (result : ret) :
  (Deployed.success (classify result) = true
   ↔ matches_none (stderr result) ∧ exitCode result = 0)
  ∧ (Deployed.deployed (classify result) = true
     ↔ matches_none (stderr result) ∧ exitCode result = 0
       ∧ (0 < occurrences JS.newline (stdout result))%nat).
Proof.
  rewrite matches_none_spec. unfold classify.
  rewrite (split_length JS.newline (stdout result)).
  destruct (JS.includes (stderr result) "No state file was found!");
    [simpl; split; split; (done || by intros [[? _] _]) |].
  destruct (JS.includes (stderr result) "but detected no outputs");
    [simpl; split; split; (done || by intros [(_ & ? & _) _]) |].
  destruct (JS.includes (stderr result) "Error finding AWS credentials");
    [simpl; split; split; (done || by intros [(_ & _ & ? & _) _]) |].
  destruct (JS.includes (stderr result) "Initialization required");
    [simpl; split; split; (done || by intros [(_ & _ & _ & ? & _) _]) |].
  destruct (JS.includes (stderr result) "Could not load plugin");
    [simpl; split; split; (done || by intros [(_ & _ & _ & _ & ?) _]) |].
  simpl. destruct (Z.eqb_spec (exitCode result) 0) as [Hz|Hz]; simpl.
  - destruct (1 <? S (occurrences JS.newline (stdout result)))%nat eqn:Hlt; simpl.
    + apply Nat.ltb_lt in Hlt. split; split; try done. intros _. split_and!; [done..|lia].
    + apply Nat.ltb_ge in Hlt. split; split; try done. intros (_ & _ & ?). lia.
  - split; split; try done; by intros (_ & ? & _) || by intros (_ & ?).
Qed.

(** X14: a plan child ended by a signal closes with no exit code, which
    [execProcess] stores as 0: [getPlan] reports the stack as up to date. *)
Theorem killed_plan_reads_up_to_date (dir : string) (pre post : list event) :
  child w (plan_call dir) = pre ++ close_event None :: post →
  ¬ closes pre →
  snd (getPlan dir)
  = Resolved {| Plan.hasChanges := false; Plan.success := true |}.
Proof.
  intros Hchild Hpre. rewrite getPlan_eq, Hchild.
  by rewrite (execProcess_closed_form false pre post None Hpre).
Qed.

(** X15: a state command that closes with a code other than 0 (also when
    it could not be started) and has written none of the known failure
    texts to [stderr] makes the stack not deployed with the reason
    "Unknown"; the plan command is not spawned for it. *)
Theorem failed_state_probe_is_unknown (dir : string) (pre post : list event) (c : Z) :
  child w (state_call dir) = pre ++ close_event (Some c) :: post →
  ¬ closes pre →
  c ≠ 0 →
  matches_none (err_text pre) →
  getStatus dir
  = ([state_call dir],
     Resolved {| isDeployedResult :=
                   {| Deployed.deployed := false; Deployed.success := false;
                      Deployed.failReason := Some "Unknown" |};
                 planResult := None |}).
Proof.
  intros Hchild Hpre Hc Hnone. apply matches_none_spec in Hnone as (H1 & H2 & H3 & H4 & H5).
  unfold getStatus. rewrite isDeployed_eq, Hchild.
  rewrite (execProcess_closed_form false pre post (Some c) Hpre).
  rewrite andb_false_r. unfold mbind, mret, classify.
  cbn [stderr stdout exitCode JS.or_zero default].
  rewrite H1, H2, H3, H4, H5. apply Z.eqb_neq in Hc.
  cbn [orb negb]. unfold JS.or_zero. cbn [default from_option].
  change (id c) with c. by rewrite Hc.
Qed.

(** X16: in the record [getStatus] resolves with, [planResult] is present
    exactly when [isDeployedResult] says deployed; a plan result with
    changes is a successful one, and deployed comes with probe success. *)
Theorem status_record_shape (dir : string) (r : status) :
  snd (getStatus dir) = Resolved r →
  (is_Some (planResult r) ↔ Deployed.deployed (isDeployedResult r) = true)
  ∧ (∀ p, planResult r = Some p → Plan.hasChanges p = true → Plan.success p = true)
  ∧ (Deployed.deployed (isDeployedResult r) = true →
     Deployed.success (isDeployedResult r) = true).
Proof.
  unfold getStatus. rewrite isDeployed_eq.
  destruct (execProcess (child w (state_call dir)) false) as [result| | |]; try done.
  simpl. assert (Hds : Deployed.deployed (classify result) = true →
                       Deployed.success (classify result) = true).
  { unfold classify.
    by repeat match goal with |- context [if ?b then _ else _] => destruct b end. }
  destruct (Deployed.deployed (classify result)) eqn:Hd.
  - rewrite getPlan_eq.
    destruct (execProcess (child w (plan_call dir)) false) as [result'| | |]; try done.
    simpl. intros [= <-]. cbn [planResult isDeployedResult]. rewrite Hd.
    split_and!.
    + split; [done | by eexists].
    + intros p [= <-]. unfold interpret.
      by repeat match goal with |- context [if ?b then _ else _] => destruct b end.
    + intros _. by apply Hds.
  - simpl. intros [= <-]. cbn [planResult isDeployedResult]. rewrite Hd.
    split_and!; [|done|done].
    split; [by intros [? ?] | done].
Qed.

Lemma getStatus_state_call (dir : string) : state_call dir ∈ fst (getStatus dir).
Proof.
  rewrite getStatus_log.
  destruct (snd (isDeployed dir)) as [d| | |]; [destruct (Deployed.deployed d)|..];
    set_solver.
Qed.

(** X17: [getStatusAll] starts the state command of every stack of
    [deployOrder], whatever the children of the other stacks do, even if
    one of them never ends. *)
Theorem every_state_probe_started (dependencyTree : OrderedDependencies)
    (stack : string) :
  stack ∈ deployOrder dependencyTree →
  state_call (resolve w stack) ∈ fst (getStatusAll dependencyTree).
Proof.
  intros Hstack. unfold getStatusAll. apply Promise_all_calls.
  exists stack. split; [done | apply getStatus_state_call].
Qed.

Lemma getStatus_settles (dir : string) :
  (∃ r, snd (getStatus dir) = Resolved r) ∨ snd (getStatus dir) = Pending.
Proof.
  unfold getStatus. rewrite isDeployed_eq. unfold execProcess.
  destruct (listen false (child w (state_call dir)) _ None) as [result|e| |c] eqn:Hs.
  - simpl. destruct (Deployed.deployed (classify result)); [|left; by eexists].
    rewrite getPlan_eq. unfold execProcess.
    destruct (listen false (child w (plan_call dir)) _ None) as [result'|e| |c] eqn:Hp.
    + left. by eexists.
    + by apply listen_false_not_rejected in Hp.
    + by right.
    + by apply listen_not_exited in Hp.
  - by apply listen_false_not_rejected in Hs.
  - by right.
  - by apply listen_not_exited in Hs.
Qed.

Lemma all_outcomes_step {A : Type} (o : outcome A) (os : list (outcome A)) :
  all_outcomes (o :: os)
  = match o with
    | Resolved a =>
        match all_outcomes os with
        | Resolved l => Resolved (a :: l)
        | Rejected e => Rejected e
        | Pending => Pending
        | Exited c => Exited c
        end
    | Rejected e => Rejected e
    | Pending =>
        match all_outcomes os with
        | Rejected e => Rejected e
        | Exited c => Exited c
        | _ => Pending
        end
    | Exited c => Exited c
    end.
Proof. done. Qed.

Lemma all_outcomes_quiet {A : Type} (os : list (outcome A)) :
  (∀ o, o ∈ os → (∃ a, o = Resolved a) ∨ o = Pending) →
  (∃ v, all_outcomes os = Resolved v) ∨ all_outcomes os = Pending.
Proof.
  induction os as [|o os IH]; intros Hall; [left; by eexists|].
  rewrite all_outcomes_step.
  destruct IH as [[v Hv]|Hv]; [intros o' Ho'; apply Hall; by right | |];
    destruct (Hall o) as [[a ->] | ->]; try (by left); rewrite Hv;
    [left; by eexists | by right | by right | by right].
Qed.

Lemma all_outcomes_pending {A : Type} (os : list (outcome A)) :
  (∀ o, o ∈ os → (∃ a, o = Resolved a) ∨ o = Pending) →
  Pending ∈ os →
  all_outcomes os = Pending.
Proof.
  induction os as [|o os IH]; intros Hall Hin; [inversion Hin|].
  rewrite all_outcomes_step.
  assert (Hrest : ∀ o', o' ∈ os → (∃ a, o' = Resolved a) ∨ o' = Pending).
  { intros o' Ho'. apply Hall. by right. }
  destruct (Hall o) as [[a ->] | ->]; [by left| |].
  - apply elem_of_cons in Hin as [Heq|Hin]; [done|]. by rewrite IH.
  - by destruct (all_outcomes_quiet os Hrest) as [[v ->] | ->].
Qed.

(** X18: there is no timeout: when the state command of one stack of
    [deployOrder] never closes, [getStatusAll] never settles, however the
    other stacks' probes end. *)
Theorem one_hanging_probe_blocks_all (dependencyTree : OrderedDependencies)
    (stack : string) :
  stack ∈ deployOrder dependencyTree →
  ¬ closes (child w (state_call (resolve w stack))) →
  snd (getStatusAll dependencyTree) = Pending.
Proof.
  intros Hstack Hhang. unfold getStatusAll, Promise_all. cbn [snd].
  apply all_outcomes_pending.
  - intros o Ho. apply list_elem_of_fmap in Ho as (m & -> & Hm).
    apply list_elem_of_fmap in Hm as (s & -> & _). apply getStatus_settles.
  - apply list_elem_of_fmap. exists (getStatus (resolve w stack)). split.
    + unfold getStatus. rewrite isDeployed_eq.
      unfold execProcess. by rewrite (listen_pending false _ _ None Hhang).
    + by apply (list_elem_of_fmap_2 (λ s, getStatus (resolve w s))).
Qed.


(** ** The CommonJS [execProcess] *)

Lemma cjs_listen_closed_form (rej : bool) (pre post : list event) (exit : option Z)
    (r : Cjs.ret) (error : option spawn_error) :
  ¬ closes pre →
  Cjs.listen rej (pre ++ close_event exit :: post) r error
  = let final := from_option Some error (last_error pre) in
    let out := Cjs.stdout r +:+ out_text pre in
    let errs := Cjs.stderr r +:+ err_text pre in
    if (bool_decide (is_Some final) || JS.not_strict_zero exit) && rej then
      match final with
      | Some e => Cjs.Rejected (Cjs.Enriched (code e) out errs exit)
      | None => Cjs.Uncaught
      end
    else Cjs.Resolved (Cjs.Ret out errs exit final).
Proof.
  revert r error. induction pre as [|ev pre IH]; intros r error Hpre.
  - simpl. by rewrite !append_empty_r.
  - apply not_closes_cons in Hpre as [Hev Hpre].
    destruct ev as [data|data|e|exit']; simpl.
    + rewrite (IH _ _ Hpre). simpl. by rewrite !append_assoc.
    + rewrite (IH _ _ Hpre). simpl. by rewrite !append_assoc.
    + rewrite (IH _ _ Hpre). simpl. by destruct (last_error pre).
    + by destruct (Hev exit').
Qed.

Lemma last_error_none (events : list event) :
  last_error events = None ↔ ∀ e, error_event e ∉ events.
Proof.
  induction events as [|ev events IH]; simpl.
  - split; [intros _ e H; inversion H | done].
  - destruct ev as [d|d|e0|x]; try (rewrite IH; set_solver).
    split.
    + by destruct (last_error events).
    + intros H. exfalso. apply (H e0). by left.
Qed.

Lemma last_error_split (rest tail : list event) (e : spawn_error) :
  (∀ e', error_event e' ∉ tail) →
  last_error (rest ++ error_event e :: tail) = Some e.
Proof.
  intros Ht. induction rest as [|ev rest IH]; simpl.
  - apply last_error_none in Ht. by rewrite Ht.
  - destruct ev; try done. by rewrite IH.
Qed.

(** X19: in the CommonJS script, with [rejectIfExitNonzero] set, a child
    that ran and closed with a code other than 0 (or was ended by a
    signal) settles nothing: [Object.assign] is called on the missing
    error and throws inside the [close] listener, so the caller's [catch]
    is never reached. *)
Theorem cjs_nonzero_exit_throws_in_listener (pre post : list event) (exit : option Z) :
  ¬ closes pre →
  (∀ e, error_event e ∉ pre) →
  exit ≠ Some 0 →
  Cjs.execProcess (pre ++ close_event exit :: post) true = Cjs.Uncaught.
Proof.
  intros Hpre Hnoerr Hexit. unfold Cjs.execProcess.
  rewrite (cjs_listen_closed_form _ _ _ _ _ _ Hpre).
  apply last_error_none in Hnoerr. rewrite Hnoerr. simpl.
  destruct exit as [c|]; [|done]. simpl.
  destruct (Z.eqb_spec c 0) as [->|?]; done.
Qed.

(** X20: in the CommonJS script, with [rejectIfExitNonzero] set, a child
    that raised an error is rejected with that error, whatever code it
    closes with: the last error raised, with the output collected so far
    and the exit code copied onto it. *)
Theorem cjs_launch_failure_rejects_with_error
    (rest tail post : list event) (e : spawn_error) (exit : option Z) :
  ¬ closes (rest ++ error_event e :: tail) →
  (∀ e', error_event e' ∉ tail) →
  Cjs.execProcess ((rest ++ error_event e :: tail) ++ close_event exit :: post) true
  = Cjs.Rejected
      {| Cjs.e_code := code e;
         Cjs.e_stdout := out_text (rest ++ error_event e :: tail);
         Cjs.e_stderr := err_text (rest ++ error_event e :: tail);
         Cjs.e_exitCode := exit |}.
Proof.
  intros Hpre Htail. unfold Cjs.execProcess.
  rewrite (cjs_listen_closed_form _ _ _ _ _ _ Hpre).
  by rewrite (last_error_split rest tail e Htail).
Qed.

(** ** The first script's dependency tree *)

Lemma ids_map_id (l : list ids) : ids_map (λ id, id) <$> l = l.
Proof.
  induction l as [|[a b more] l IH]; [done|].
  rewrite fmap_cons, IH. unfold ids_map. simpl. by rewrite list_fmap_id.
Qed.

(** X21: in the first script both fields of the returned object are the
    one array that [reverse] turned around in place: [destroyOrder] reads
    the same as [deployOrder], with every dependency before the stack that
    depends on it. *)
Theorem first_script_orders_alias (stmts : list stmt)
    (store : list (list string)) (t : tree_refs) :
  first_orderDependencies stmts = Toposort.Go (store, t) →
  destroyOrder_at t = deployOrder_at t
  ∧ ∃ order,
      store !! destroyOrder_at t = Some order
      ∧ store !! deployOrder_at t = Some order
      ∧ ∀ a, a ∈ edge_lists stmts → Toposort.before order (at1 a) (at0 a).
Proof.
  unfold first_orderDependencies. rewrite ids_map_id.
  destruct (Toposort.toposort (edge_lists stmts)) as [L|n|] eqn:HL; [|done|done].
  simpl. intros [= <- <-]. simpl. split; [done|].
  exists (reverse L). split_and!; [done | done |].
  intros a Ha. apply before_reverse.
  apply toposort_sorted in HL as (_ & _ & Hedge). apply Hedge. by exists a.
Qed.

(** ** The execa-based deployment probe *)



(** X23: the first script knows only the stacks that edges mention (its
    header lists this as a known issue): the returned order holds exactly
    the first two endpoints of the edge statements, so a stack that is
    named by a node statement alone does not show up. *)
Theorem first_script_misses_lone_stacks (stmts : list stmt)
    (store : list (list string)) (t : tree_refs) (order : list string) :
  first_orderDependencies stmts = Toposort.Go (store, t) →
  store !! deployOrder_at t = Some order →
  ∀ x, x ∈ order ↔ ∃ a, a ∈ edge_lists stmts ∧ (at0 a = x ∨ at1 a = x).
Proof.
  unfold first_orderDependencies. rewrite ids_map_id.
  destruct (Toposort.toposort (edge_lists stmts)) as [L|n|] eqn:HL; [|done|done].
  simpl. intros [= <- <-]. simpl. intros [= <-] x.
  apply toposort_sorted in HL as (_ & Helem & _).
  by rewrite elem_of_reverse, Helem, uniqueNodes_elem.
Qed.

End Script.

(** ** One stack's result depends on its own children only *)

Lemma getStatus_local (w w' : host) (dir : string) :
  same_probes w w' dir → getStatus w' dir = getStatus w dir.
Proof.
  intros (Htg & Hy & Hargv & Hstate & Hplan).
  unfold getStatus, isDeployed, getPlan, exec, classify in *.
  unfold state_call, plan_call, tgPlanArgs in *.
  by rewrite Htg, Hy, Hargv, Hstate, Hplan.
Qed.

(** C9: when every child spawned for the stacks of [deployOrder] followed
    by [noDeps] reaches its [close] event, whether it ran or failed to
    start, [getStatusAll] collects one result per stack of that list, in
    order; the result of a stack is what [getStatus] yields for it, and is
    the same whatever the children of the other stacks deliver; [go] ends
    with these results. *)
Theorem every_stack_reported (w : host) (deps : OrderedDependencies) :
  (∀ stack args, stack ∈ deployOrder deps ++ noDeps deps →
     closes (child w {| file := terragrunt w; args := args;
                        opt_cwd := resolve w stack |})) →
  ∃ results,
    snd (getStatusAll w (with_noDeps deps)) = Resolved results
    ∧ length results = length (deployOrder deps ++ noDeps deps)
    ∧ (∀ i stack, (deployOrder deps ++ noDeps deps) !! i = Some stack →
         ∃ r, results !! i = Some r
              ∧ ∀ w', same_probes w w' (resolve w stack) →
                      snd (getStatus w' (resolve w stack)) = Resolved r)
    ∧ (snd (getDependencyTree w) = Resolved deps → order_only w = false →
       snd (go w) = Resolved results).
Proof.
  intros Hcloses.
  destruct (getStatusAll_resolves w deps Hcloses)
    as (results & Hres & Hlen & Hnth & Hgo).
  exists results. split_and!; [done | done | | done].
  intros i stack Hi. destruct (Hnth i stack Hi) as (r & Hr & Hstatus).
  exists r. split; [done|]. intros w' Hsame.
  by rewrite (getStatus_local w w' _ Hsame).
Qed.

(** ** The sample run, checked against the theorems *)

Lemma sample_acyclic : ¬ cyclic Sample.world Sample.stmts.
Proof.
  intros H. apply has_cycle_cyclic in H.
  eapply toposort_go_acyclic in H; [done|]. vm_compute. reflexivity.
Qed.

Lemma deployOrder_mirrors_destroyOrder_witness :
  ∃ deps,
    snd (getDependencyTree Sample.world) = Resolved deps
    ∧ deployOrder deps = reverse (destroyOrder deps)
    ∧ length (deployOrder deps) = length (destroyOrder deps)
    ∧ ∀ S, S ∈ destroyOrder deps ∨ S ∈ deployOrder deps →
        JS.indexOf (deployOrder deps) S
        = Z.of_nat (length (destroyOrder deps)) - 1
          - JS.indexOf (destroyOrder deps) S.
Proof.
  apply (deployOrder_mirrors_destroyOrder Sample.world
           (Ret "digraph { }" EmptyString 0 None) (Graph Sample.stmts) []).
  - reflexivity.
  - reflexivity.
  - exact sample_acyclic.
Defined.

Example sample_tree :
  snd (getDependencyTree Sample.world)
  = Resolved {| destroyOrder := ["b"; "a"]; deployOrder := ["a"; "b"];
                noDeps := ["c"; "d"] |}.
Proof. vm_compute. reflexivity. Qed.

Lemma sample_cyclic : cyclic Sample.world_looping Sample.looping.
Proof.
  exists "a". apply tc_l with "b"; [|apply tc_once]; unfold depends_on;
    vm_compute; set_solver.
Qed.

Lemma cycle_is_fatal_witness :
  (∃ node, orderDependencies Sample.world_looping Sample.looping
           = Rejected (CyclicDependency node))
  ∧ (∀ deps, snd (getDependencyTree Sample.world_looping) ≠ Resolved deps)
  ∧ (∀ results, snd (go Sample.world_looping) ≠ Resolved results)
  ∧ fst (go Sample.world_looping) = [graph_call Sample.world_looping].
Proof.
  apply (cycle_is_fatal Sample.world_looping
           (Ret "digraph { }" EmptyString 0 None) (Graph Sample.looping) []).
  - reflexivity.
  - reflexivity.
  - exact sample_cyclic.
Defined.

(** C3 as stated fails on a chained edge statement: for [a -> b -> c] the
    identifier [c] is mentioned by the graph but is neither in [noDeps] nor
    in [destroyOrder]. *)
Lemma chained_edge_drops_endpoint :
  ¬ (∀ deps,
       orderDependencies Sample.world Sample.chained = Resolved deps →
       (∀ x, x ∈ noDeps deps ∨ x ∈ destroyOrder deps
             ↔ x ∈ allNodes Sample.world Sample.chained)
       ∧ (∀ x, ¬ (x ∈ noDeps deps ∧ x ∈ destroyOrder deps))).
Proof.
  intros H.
  destruct (H {| destroyOrder := ["a"; "b"]; deployOrder := ["b"; "a"];
                 noDeps := [] |}) as [Hunion _].
  { vm_compute. reflexivity. }
  destruct (Hunion "c") as [_ Hc]. simpl in Hc.
  assert (Hin : "c" ∈ allNodes Sample.world Sample.chained).
  { vm_compute. set_solver. }
  destruct (Hc Hin) as [Hn|Hd]; set_solver.
Qed.

Lemma orders_partition_allNodes_witness :
  (∀ x, x ∈ ["c"; "d"] ∨ x ∈ ["b"; "a"] ↔ x ∈ allNodes Sample.world Sample.stmts)
  ∧ (∀ x, ¬ (x ∈ ["c"; "d"] ∧ x ∈ ["b"; "a"]))
  ∧ (∀ x, x ∈ ["a"; "b"] ↔ x ∈ ["b"; "a"]).
Proof.
  apply (orders_partition_allNodes Sample.world Sample.stmts
           {| destroyOrder := ["b"; "a"]; deployOrder := ["a"; "b"];
              noDeps := ["c"; "d"] |}).
  - intros a Ha. vm_compute in Ha. apply list_elem_of_singleton in Ha as ->.
    reflexivity.
  - vm_compute. reflexivity.
Defined.

Lemma getPlan_exit_codes_witness :
  ∃ p,
    snd (getPlan Sample.world "/infra/a") = Resolved p
    ∧ (2 = 0 → p = {| Plan.hasChanges := false; Plan.success := true |})
    ∧ (2 = 2 → p = {| Plan.hasChanges := true; Plan.success := true |})
    ∧ (2 ≠ 0 → 2 ≠ 2 → p = {| Plan.hasChanges := false; Plan.success := false |}).
Proof.
  apply (getPlan_exit_codes Sample.world "/infra/a"
           (Ret "Plan: 1 to add, 0 to change, 0 to destroy." EmptyString 2 None)).
  reflexivity.
Defined.

Lemma sample_quiet : matches_none EmptyString.
Proof.
  intros pat Hpat. unfold failure_patterns in Hpat.
  repeat (apply elem_of_cons in Hpat as [->|Hpat]; [reflexivity|]).
  inversion Hpat.
Qed.

Lemma isDeployed_empty_listing_witness :
  line_count "  " = 1%nat
  ∧ ∃ d,
      snd (isDeployed Sample.world "/infra/d") = Resolved d
      ∧ ((line_count "  " ≤ 1)%nat →
         d = {| Deployed.deployed := false; Deployed.success := true;
                Deployed.failReason := Some no_output_reason |})
      ∧ (Deployed.deployed d = true ↔ (1 < line_count "  ")%nat).
Proof.
  split; [reflexivity|].
  apply (isDeployed_empty_listing Sample.world "/infra/d"
           (Ret "  " EmptyString 0 None)).
  - reflexivity.
  - reflexivity.
  - exact sample_quiet.
Defined.

Lemma plan_probe_only_when_deployed_witness :
  snd (isDeployed Sample.world "/infra/c")
  = Resolved {| Deployed.deployed := false; Deployed.success := false;
                Deployed.failReason := Some "No state file found." |}
  ∧ fst (getStatus Sample.world "/infra/c") = [state_call Sample.world "/infra/c"]
  ∧ plan_call Sample.world "/infra/c" ∉ fst (getStatus Sample.world "/infra/c").
Proof.
  apply (plan_probe_only_when_deployed Sample.world "/infra/c")
    with (result := Ret EmptyString "No state file was found!" 1 None).
  - reflexivity.
  - reflexivity.
Defined.

Lemma isDeployed_result_shape_witness :
  ∃ d,
    snd (isDeployed Sample.world "/infra/b") = Resolved d
    ∧ ((Deployed.deployed d = true ∧ Deployed.success d = true
        ∧ Deployed.failReason d = None)
       ∨ (Deployed.deployed d = false
          ∧ ∃ reason, Deployed.failReason d = Some reason ∧ reason ≠ EmptyString))
    ∧ (Deployed.deployed d = true → Deployed.success d = true).
Proof.
  apply (isDeployed_result_shape Sample.world "/infra/b"
           (Ret EmptyString EmptyString (-2)
                (Some (SpawnError "ENOENT" (Some (EmptyString, EmptyString, -2)))))).
  reflexivity.
Defined.

Lemma sample_closes (call : spawn_call) : closes (Sample.child call).
Proof.
  unfold closes, Sample.child.
  repeat case_bool_decide; eexists; repeat first [by left | right].
Qed.

Lemma every_stack_reported_witness :
  ∃ results,
    snd (getStatusAll Sample.world (with_noDeps Sample.deps)) = Resolved results
    ∧ length results = 4%nat
    ∧ (∀ i stack, ["a"; "b"; "c"; "d"] !! i = Some stack →
         ∃ r, results !! i = Some r
              ∧ ∀ w', same_probes Sample.world w' (Sample.resolve stack) →
                      snd (getStatus w' (Sample.resolve stack)) = Resolved r)
    ∧ (snd (getDependencyTree Sample.world) = Resolved Sample.deps →
       order_only Sample.world = false →
       snd (go Sample.world) = Resolved results).
Proof.
  apply (every_stack_reported Sample.world Sample.deps).
  intros stack args _. apply sample_closes.
Defined.

Example sample_results :
  snd (go Sample.world)
  = Resolved
      [ {| isDeployedResult := Deployed.Make true true None;
           planResult := Some (Plan.Make true true) |};
        {| isDeployedResult := Deployed.Make false false (Some "Unknown");
           planResult := None |};
        {| isDeployedResult := Deployed.Make false false (Some "No state file found.");
           planResult := None |};
        {| isDeployedResult := Deployed.Make false true (Some no_output_reason);
           planResult := None |} ].
Proof. vm_compute. reflexivity. Qed.

(** ** Small checks of the built-ins and of the sort *)

Example includes_inside :
  JS.includes "Error: No state file was found! Run init." "No state file was found!"
  = true.
Proof. reflexivity. Qed.

Example includes_absent :
  JS.includes "No state file" "No state file was found!" = false.
Proof. reflexivity. Qed.

Example split_two_lines :
  JS.split JS.newline ("a" +:+ String JS.newline "b") = ["a"; "b"].
Proof. reflexivity. Qed.

Example split_trailing_newline :
  JS.split JS.newline (String JS.newline EmptyString) = [EmptyString; EmptyString].
Proof. reflexivity. Qed.

Example indexOf_absent : JS.indexOf ["b"; "a"] "c" = -1.
Proof. reflexivity. Qed.

Example toposort_diamond :
  Toposort.toposort
    [Ids "app" "db" []; Ids "app" "cache" []; Ids "db" "vpc" []; Ids "cache" "vpc" []]
  = Toposort.Go ["app"; "db"; "cache"; "vpc"].
Proof. vm_compute. reflexivity. Qed.

Example toposort_loop :
  Toposort.toposort [Ids "a" "b" []; Ids "b" "c" []; Ids "c" "a" []]
  = Toposort.Throw "c".
Proof. vm_compute. reflexivity. Qed.

Example toposort_chained :
  Toposort.toposort [Ids "a" "b" ["c"]] = Toposort.Go ["a"; "b"].
Proof. vm_compute. reflexivity. Qed.

(** ** Further runs, checked against the theorems *)

Lemma not_closes_check (events : list event) :
  forallb (λ ev, match ev with close_event _ => false | _ => true end) events = true →
  ¬ closes events.
Proof.
  intros Hall [exit Hin]. induction events as [|ev events IH]; [inversion Hin|].
  simpl in Hall. apply andb_true_iff in Hall as [Hev Hall].
  apply elem_of_cons in Hin as [<-|Hin]; [done | by apply IH].
Qed.

Lemma execProcess_collects_witness :
  ∃ r,
    (execProcess ([stdout_data "a"; stderr_data "warn"; stdout_data "b"]
                  ++ close_event (Some 3) :: []) true = Resolved r
     ∨ execProcess ([stdout_data "a"; stderr_data "warn"; stdout_data "b"]
                    ++ close_event (Some 3) :: []) true = Rejected (ExecFailure r))
    ∧ stdout r = "ab"
    ∧ stderr r = "warn"
    ∧ exitCode r = 3.
Proof.
  apply (execProcess_collects true
           [stdout_data "a"; stderr_data "warn"; stdout_data "b"] [] (Some 3)).
  apply not_closes_check. reflexivity.
Defined.

Lemma execProcess_rejects_unless_zero_witness :
  ((∃ r, execProcess ([stdout_data "partial"] ++ close_event None :: []) true
         = Resolved r) ↔ @None Z = Some 0)
  ∧ (@None Z ≠ Some 0 →
     execProcess ([stdout_data "partial"] ++ close_event None :: []) true
     = Rejected (ExecFailure {| stdout := "partial"; stderr := EmptyString;
                                exitCode := 0; err := None |}))
  ∧ (@None Z = None →
     ∃ r, execProcess ([stdout_data "partial"] ++ close_event None :: []) true
          = Rejected (ExecFailure r) ∧ exitCode r = 0).
Proof.
  apply (execProcess_rejects_unless_zero [stdout_data "partial"] [] None).
  apply not_closes_check. reflexivity.
Defined.

Lemma execProcess_attaches_last_error_witness :
  ∃ r,
    execProcess ([error_event Sample.enoent] ++ close_event (Some (-2)) :: []) false
    = Resolved r
    ∧ (err r = None ↔ ∀ e, error_event e ∉ [error_event Sample.enoent])
    ∧ (∀ e rest tail,
         [error_event Sample.enoent] = rest ++ error_event e :: tail →
         (∀ e', error_event e' ∉ tail) →
         err r = Some {| code := code e;
                         assigned := Some (stdout r, stderr r, exitCode r) |}).
Proof.
  apply (execProcess_attaches_last_error [error_event Sample.enoent] [] (Some (-2))).
  apply not_closes_check. reflexivity.
Defined.

Lemma graph_failure_exits_1_witness :
  getDependencyTree Sample.world_failing_graph
  = ([graph_call Sample.world_failing_graph], Exited 1)
  ∧ go Sample.world_failing_graph
    = ([graph_call Sample.world_failing_graph], Exited 1).
Proof.
  apply (graph_failure_exits_1 Sample.world_failing_graph
           [stderr_data "Could not find any subfolders with Terragrunt configuration files"]
           [] (Some 1)).
  - reflexivity.
  - apply not_closes_check. reflexivity.
  - discriminate.
Defined.

Lemma unparsed_graph_rejects_witness :
  getDependencyTree Sample.world_unparsed
  = ([graph_call Sample.world_unparsed], Rejected TypeError)
  ∧ go Sample.world_unparsed
    = ([graph_call Sample.world_unparsed], Rejected TypeError).
Proof.
  apply (unparsed_graph_rejects Sample.world_unparsed
           (Ret "digraph { }" EmptyString 0 None)).
  - reflexivity.
  - left. reflexivity.
Defined.

Lemma no_edges_all_noDeps_witness :
  orderDependencies Sample.world [node_stmt "a"; attr_stmt; node_stmt "b"]
  = Resolved {| destroyOrder := []; deployOrder := [];
                noDeps := Sample.relative <$> ["a"; "b"] |}.
Proof.
  apply (no_edges_all_noDeps Sample.world [node_stmt "a"; attr_stmt; node_stmt "b"]).
  reflexivity.
Defined.

Lemma orders_respect_edges_witness :
  Toposort.before ["b"; "a"] "b" "a" ∧ Toposort.before ["a"; "b"] "a" "b".
Proof.
  apply (orders_respect_edges Sample.world Sample.stmts Sample.deps
           ltac:(vm_compute; reflexivity) (Ids "b" "a" [])).
  vm_compute. by left.
Defined.

Lemma no_stack_twice_witness :
  NoDup ["a"; "b"; "c"; "d"] ∧ NoDup ["b"; "a"; "c"; "d"].
Proof.
  apply (no_stack_twice Sample.world Sample.stmts Sample.deps).
  - vm_compute. repeat (constructor; [set_solver|]). constructor.
  - vm_compute. reflexivity.
Defined.

Lemma order_flags_skip_probes_witness :
  go Sample.world_orders_only = ([graph_call Sample.world_orders_only], Exited 0).
Proof.
  apply (order_flags_skip_probes Sample.world_orders_only Sample.deps).
  - vm_compute. reflexivity.
  - reflexivity.
Defined.

Lemma go_spawns_only_terragrunt_witness :
  file (plan_call Sample.world "/infra/a") = Sample.terragrunt
  ∧ (plan_call Sample.world "/infra/a" = graph_call Sample.world
     ∨ ∃ deps dir,
         snd (getDependencyTree Sample.world) = Resolved deps
         ∧ dir ∈ probed_dirs Sample.world deps
         ∧ (plan_call Sample.world "/infra/a" = state_call Sample.world dir
            ∨ plan_call Sample.world "/infra/a" = plan_call Sample.world dir)).
Proof.
  apply (go_spawns_only_terragrunt Sample.world (plan_call Sample.world "/infra/a")).
  vm_compute. right. right. by left.
Defined.

Lemma killed_plan_reads_up_to_date_witness :
  snd (getPlan Sample.world_killed_plan "/infra/a")
  = Resolved {| Plan.hasChanges := false; Plan.success := true |}.
Proof.
  apply (killed_plan_reads_up_to_date Sample.world_killed_plan "/infra/a"
           [stdout_data "Refreshing state..."] []).
  - reflexivity.
  - apply not_closes_check. reflexivity.
Defined.

Lemma failed_state_probe_is_unknown_witness :
  getStatus Sample.world "/infra/b"
  = ([state_call Sample.world "/infra/b"],
     Resolved {| isDeployedResult :=
                   {| Deployed.deployed := false; Deployed.success := false;
                      Deployed.failReason := Some "Unknown" |};
                 planResult := None |}).
Proof.
  apply (failed_state_probe_is_unknown Sample.world "/infra/b"
           [error_event Sample.enoent] [] (-2)).
  - reflexivity.
  - apply not_closes_check. reflexivity.
  - discriminate.
  - exact sample_quiet.
Defined.

Lemma status_record_shape_witness :
  (is_Some (Some (Plan.Make true true)) ↔ true = true)
  ∧ (∀ p, Some (Plan.Make true true) = Some p →
          Plan.hasChanges p = true → Plan.success p = true)
  ∧ (true = true → true = true).
Proof.
  apply (status_record_shape Sample.world "/infra/a"
           {| isDeployedResult := Deployed.Make true true None;
              planResult := Some (Plan.Make true true) |}).
  vm_compute. reflexivity.
Defined.

Lemma every_state_probe_started_witness :
  state_call Sample.world_hanging (Sample.resolve "a")
  ∈ fst (getStatusAll Sample.world_hanging (with_noDeps Sample.deps)).
Proof.
  apply (every_state_probe_started Sample.world_hanging (with_noDeps Sample.deps) "a").
  vm_compute. by left.
Defined.

Lemma one_hanging_probe_blocks_all_witness :
  snd (getStatusAll Sample.world_hanging (with_noDeps Sample.deps)) = Pending.
Proof.
  apply (one_hanging_probe_blocks_all Sample.world_hanging
           (with_noDeps Sample.deps) "b").
  - vm_compute. right. by left.
  - apply not_closes_check. reflexivity.
Defined.

Lemma cjs_nonzero_exit_throws_in_listener_witness :
  Cjs.execProcess ([stderr_data "Error: no configuration"] ++ close_event (Some 1) :: [])
                  true
  = Cjs.Uncaught.
Proof.
  apply (cjs_nonzero_exit_throws_in_listener [stderr_data "Error: no configuration"]
           [] (Some 1)).
  - apply not_closes_check. reflexivity.
  - intros e He. apply list_elem_of_singleton in He. discriminate.
  - discriminate.
Defined.

Lemma cjs_launch_failure_rejects_with_error_witness :
  Cjs.execProcess (([] ++ error_event Sample.enoent :: [])
                   ++ close_event (Some (-2)) :: []) true
  = Cjs.Rejected
      {| Cjs.e_code := "ENOENT";
         Cjs.e_stdout := out_text ([] ++ error_event Sample.enoent :: []);
         Cjs.e_stderr := err_text ([] ++ error_event Sample.enoent :: []);
         Cjs.e_exitCode := Some (-2) |}.
Proof.
  apply (cjs_launch_failure_rejects_with_error [] [] [] Sample.enoent (Some (-2))).
  - apply not_closes_check. reflexivity.
  - intros e He. inversion He.
Defined.

Lemma first_script_orders_alias_witness :
  0%nat = 0%nat
  ∧ ∃ order,
      [["a"; "b"]] !! 0%nat = Some order
      ∧ [["a"; "b"]] !! 0%nat = Some order
      ∧ ∀ a, a ∈ edge_lists Sample.stmts → Toposort.before order (at1 a) (at0 a).
Proof.
  apply (first_script_orders_alias Sample.stmts [["a"; "b"]] (TreeRefs 0 0)).
  vm_compute. reflexivity.
Defined.

Lemma first_script_misses_lone_stacks_witness :
  "c" ∈ ["a"; "b"]
  ↔ ∃ a, a ∈ edge_lists Sample.stmts ∧ (at0 a = "c" ∨ at1 a = "c").
Proof.
  apply (first_script_misses_lone_stacks Sample.stmts [["a"; "b"]] (TreeRefs 0 0)
           ["a"; "b"]).
  - vm_compute. reflexivity.
  - reflexivity.
Defined.
